(** * Velocity governor of the TurtleBot3 teleoperation script

    A shallow embedding of [src/main.py]: the limiter ([constraint],
    [check_limit]), the slew-rate profiler ([make_simple_profile]) and the
    control loop of [main] with its [try]/[except]/[finally] shutdown.

    Python [float] is IEEE 754 binary64.  It is modelled by the Standard
    Library's executable specification of floating-point arithmetic
    ([SpecFloat], precision 53, [emax] 1024, round to nearest even): the very
    specification Rocq's primitive floats are stated against.  Nothing is
    idealised: additions round, and the theorems below say what survives
    rounding and what does not. *)

From Stdlib Require Import ZArith Bool List String Lia.
From Stdlib Require Import Floats.SpecFloat.
Import ListNotations.

Set Implicit Arguments.

(** ** Binary64 *)

Module F64.

Definition prec : Z := 53.
Definition emax : Z := 1024.

(** A Python float: zero, infinity, NaN, or [(-1)^s * m * 2^e]. *)
Definition float64 : Type := spec_float.

Definition add (x y : float64) : float64 := SFadd prec emax x y.
Definition sub (x y : float64) : float64 := SFsub prec emax x y.
Definition div (x y : float64) : float64 := SFdiv prec emax x y.
Definition opp (x : float64) : float64 := SFopp x.
Definition abs (x : float64) : float64 := SFabs x.

(** Python's [x < y], [x <= y], [x == y]; [x > y] is [ltb y x]. *)
Definition ltb (x y : float64) : bool := SFltb x y.
Definition leb (x y : float64) : bool := SFleb x y.
Definition eqb (x y : float64) : bool := SFeqb x y.

(** The float of an integer that needs no rounding to be one. *)
Definition of_Z (z : Z) : float64 := binary_normalize prec emax z 0 false.

(** The float a decimal literal [n / d] denotes (for [n] and [d] below
    [2^53]): the correctly rounded quotient, which is how Python reads
    [0.26] as [26/100]. *)
Definition decimal (n d : Z) : float64 := div (of_Z n) (of_Z d).

Definition zero : float64 := S754_zero false.

Definition is_nan (x : float64) : bool :=
  match x with S754_nan => true | _ => false end.

Definition is_inf (x : float64) : bool :=
  match x with S754_infinity _ => true | _ => false end.

(** The floats Python can hold: mantissa and exponent in canonical form. *)
Definition valid (x : float64) : bool := valid_binary prec emax x.

(** A finite float: a valid one that is neither an infinity nor a NaN. *)
Definition finite (x : float64) : bool :=
  valid x && negb (is_nan x) && negb (is_inf x).

(** The exact value of a finite float, as an integer number of units of
    [2^-1074], the smallest positive float: every finite float is a whole
    number of them.  Zero for the zeros (and, by convention, for the
    infinities and NaN, which have no value). *)
Definition scaled (x : float64) : Z :=
  match x with
  | S754_finite s m e => cond_Zopp s (Zpos m * 2 ^ (e + 1074))
  | _ => 0
  end.

End F64.

Declare Scope f64_scope.
Delimit Scope f64_scope with f64.
Bind Scope f64_scope with F64.float64.
Infix "+" := F64.add : f64_scope.
Infix "-" := F64.sub : f64_scope.
Notation "- x" := (F64.opp x) : f64_scope.
Infix "<?" := F64.ltb : f64_scope.
Infix "<=?" := F64.leb : f64_scope.
Infix "=?" := F64.eqb : f64_scope.
Notation "x >? y" := (F64.ltb y x) (only parsing) : f64_scope.

Import F64.
Local Open Scope f64_scope.

(** ** Python builtins used by the source *)

(** [min(a, b)]: the first argument unless the second is smaller. *)
Definition py_min (a b : float64) : float64 := if b <? a then b else a.

(** [max(a, b)]: the first argument unless the second is greater. *)
Definition py_max (a b : float64) : float64 := if b >? a then b else a.

(** ** Module constants (lines 20-26) *)

Definition WAFFLE_MAX_LIN_VEL : float64 := Eval vm_compute in decimal 26 100.
Definition WAFFLE_MAX_ANG_VEL : float64 := Eval vm_compute in decimal 182 100.
Definition LIN_VEL_STEP_SIZE : float64 := Eval vm_compute in decimal 2 10.
Definition ANG_VEL_STEP_SIZE : float64 := Eval vm_compute in decimal 628 1000.

(** ** The limiter (lines 43-60) *)

Definition constraint (input min max : float64) : float64 :=
  if input <? min then min
  else if input >? max then max
  else input.

(** ** Effects: the trace of the process and the exceptions of Python *)

(** What [main] hands to its collaborators: a [Twist] message. *)
Record Vector3 := { vx : float64; vy : float64; vz : float64 }.
Record Twist := { linear : Vector3; angular : Vector3 }.

(** [Twist()]: every field is [0.0]. *)
Definition Twist_new : Twist :=
  {| linear := {| vx := zero; vy := zero; vz := zero |};
     angular := {| vx := zero; vy := zero; vz := zero |} |}.

(** [KeyboardInterrupt] is not an [Exception]: [except Exception] lets it
    through, [finally] still runs. *)
Inductive exn :=
| PyException (msg : string)
| KeyboardInterrupt.

(** The calls that reach outside the process, in the order they happen. *)
Inductive event :=
| EvError (msg : string)                 (* distutils.log.error(msg) *)
| EvPrintValues (lin ang : float64)      (* print_values(lin, ang) *)
| EvPrint (msg : string)                 (* print(...) *)
| EvPublish (t : Twist)                  (* pub.publish(t) *)
| EvSleep (seconds : Z)                  (* time.sleep(seconds) *)
| EvRestoreTerminal.                     (* termios.tcsetattr(...) *)

(** The local variables of [main] (lines 89-92). *)
Record velocities := {
  target_linear_velocity : float64;
  target_angular_velocity : float64;
  control_linear_velocity : float64;
  control_angular_velocity : float64
}.

(** The world a run threads through: the local variables, the events so far,
    the number of outside calls attempted, and the environment's say on each
    of them ([faults n = Some e]: the [n]-th call raises [e], which is how a
    transport fault or a Ctrl-C during [time.sleep] enters). *)
Record world := {
  vars : velocities;
  trace : list event;
  clock : nat;
  faults : nat -> option exn
}.

Inductive result (A : Type) :=
| Ok (a : A)
| Raise (e : exn).
Arguments Ok {A} a.
Arguments Raise {A} e.

Definition M (A : Type) : Type := world -> result A * world.

Definition ret {A} (a : A) : M A := fun w => (Ok a, w).

Definition bind {A B} (m : M A) (k : A -> M B) : M B :=
  fun w => match m w with
           | (Ok a, w') => k a w'
           | (Raise e, w') => (Raise e, w')
           end.

Notation "x <- m ;; k" := (bind m (fun x => k))
  (at level 61, m at next level, right associativity).
Notation "m ;;; k" := (bind m (fun _ => k))
  (at level 61, right associativity).

(** One outside call: it raises if the environment says so, and is recorded
    in the trace otherwise. *)
Definition call (ev : event) : M unit :=
  fun w =>
    let w' := {| vars := vars w; trace := trace w;
                 clock := S (clock w); faults := faults w |} in
    match faults w (clock w) with
    | Some e => (Raise e, w')
    | None => (Ok tt, {| vars := vars w; trace := trace w ++ [ev];
                         clock := S (clock w); faults := faults w |})
    end.

Definition get_vars : M velocities := fun w => (Ok (vars w), w).

Definition set_vars (v : velocities) : M unit :=
  fun w => (Ok tt, {| vars := v; trace := trace w;
                      clock := clock w; faults := faults w |}).

Definition raise {A} (e : exn) : M A := fun w => (Raise e, w).

(** [try: body / except Exception as e: handler e / finally: final]. *)
Definition try_except_finally (body : M unit) (handler : string -> M unit)
    (final : M unit) : M unit :=
  fun w =>
    let '(r1, w1) := body w in
    let '(r2, w2) :=
      match r1 with
      | Raise (PyException msg) => handler msg w1
      | _ => (r1, w1)
      end in
    match final w2 with
    | (Ok _, w3) => (r2, w3)
    | (Raise e, w3) => (Raise e, w3)
    end.

(** [check_limit] (lines 54-60).  The [else] branch calls
    [distutils.log.error], which writes a log line and returns; the function
    then falls off its end, so the caller gets [None]. *)
Definition check_limit (type_of_velocity : string) (velocity_value : float64)
    (model : string) : M (option float64) :=
  if String.eqb type_of_velocity "angular" then
    ret (Some (constraint velocity_value (- WAFFLE_MAX_ANG_VEL) WAFFLE_MAX_ANG_VEL))
  else if String.eqb type_of_velocity "linear" then
    ret (Some (constraint velocity_value (- WAFFLE_MAX_LIN_VEL) WAFFLE_MAX_LIN_VEL))
  else
    call (EvError "Unknown type of velocity! Please use 'linear' or 'angular'.") ;;;
    ret None.

(** The default of the third parameter. *)
Definition default_model : string := "waffle".

(** ** The profiler (lines 64-72) *)

Definition make_simple_profile (output input slop : float64) : float64 :=
  if input >? output then py_min input (output + slop)
  else if input <? output then py_max input (output - slop)
  else input.

(** ** The control loop (lines 75-222) *)

(** The literal [2.0], and the literal [0.0] is [zero]. *)
Definition two : float64 := Eval vm_compute in decimal 20 10.

(** [print_values] (lines 33-36). *)
Definition print_values (target_linear target_angular : float64) : M unit :=
  call (EvPrintValues target_linear target_angular).

(** A variable of [main] holds what [check_limit] returned.  [main] passes
    only the kinds "linear" and "angular", for which that is a float; a [None]
    would make the next comparison on it a [TypeError]. *)
Definition as_float (r : option float64) : M float64 :=
  match r with
  | Some x => ret x
  | None => raise (PyException "TypeError")
  end.

Definition set_target_linear (x : float64) : M unit :=
  v <- get_vars ;;
  set_vars {| target_linear_velocity := x;
              target_angular_velocity := target_angular_velocity v;
              control_linear_velocity := control_linear_velocity v;
              control_angular_velocity := control_angular_velocity v |}.

Definition set_target_angular (x : float64) : M unit :=
  v <- get_vars ;;
  set_vars {| target_linear_velocity := target_linear_velocity v;
              target_angular_velocity := x;
              control_linear_velocity := control_linear_velocity v;
              control_angular_velocity := control_angular_velocity v |}.

Definition set_control_linear (x : float64) : M unit :=
  v <- get_vars ;;
  set_vars {| target_linear_velocity := target_linear_velocity v;
              target_angular_velocity := target_angular_velocity v;
              control_linear_velocity := x;
              control_angular_velocity := control_angular_velocity v |}.

Definition set_control_angular (x : float64) : M unit :=
  v <- get_vars ;;
  set_vars {| target_linear_velocity := target_linear_velocity v;
              target_angular_velocity := target_angular_velocity v;
              control_linear_velocity := control_linear_velocity v;
              control_angular_velocity := x |}.

Definition all_zero : velocities :=
  {| target_linear_velocity := zero; target_angular_velocity := zero;
     control_linear_velocity := zero; control_angular_velocity := zero |}.

Definition show_targets : M unit :=
  v <- get_vars ;;
  print_values (target_linear_velocity v) (target_angular_velocity v).

(** The [if]/[elif] chain on the command (lines 127-163). *)
Definition dispatch (command : string) : M unit :=
  if String.eqb command "Straight" then
    v <- get_vars ;;
    r <- check_limit "linear" (target_linear_velocity v + LIN_VEL_STEP_SIZE)
           default_model ;;
    x <- as_float r ;;
    set_target_linear x ;;;
    show_targets
  else if String.eqb command "Back" then
    set_vars all_zero ;;;
    v <- get_vars ;;
    r <- check_limit "linear" (target_linear_velocity v - LIN_VEL_STEP_SIZE)
           default_model ;;
    x <- as_float r ;;
    set_target_linear x ;;;
    show_targets
  else if String.eqb command "Left" then
    set_target_angular zero ;;;
    set_control_angular zero ;;;
    v <- get_vars ;;
    r <- check_limit "angular" (target_angular_velocity v + ANG_VEL_STEP_SIZE)
           default_model ;;
    x <- as_float r ;;
    set_target_angular x ;;;
    show_targets
  else if String.eqb command "Right" then
    set_target_angular zero ;;;
    set_control_angular zero ;;;
    v <- get_vars ;;
    r <- check_limit "angular" (target_angular_velocity v - ANG_VEL_STEP_SIZE)
           default_model ;;
    x <- as_float r ;;
    set_target_angular x ;;;
    show_targets
  else if String.eqb command "Stop" then
    set_vars all_zero ;;;
    show_targets
  else
    call (EvPrint ("Unknown command: " ++ command)).

(** The rest of the loop body (lines 169-202): ramp both controls, publish
    them, sleep. *)
Definition ramp_and_publish : M unit :=
  v <- get_vars ;;
  set_control_linear
    (make_simple_profile (control_linear_velocity v) (target_linear_velocity v)
       (div LIN_VEL_STEP_SIZE two)) ;;;
  v <- get_vars ;;
  set_control_angular
    (make_simple_profile (control_angular_velocity v) (target_angular_velocity v)
       (div ANG_VEL_STEP_SIZE two)) ;;;
  v <- get_vars ;;
  call (EvPublish
          {| linear := {| vx := control_linear_velocity v; vy := zero; vz := zero |};
             angular := {| vx := zero; vy := zero; vz := control_angular_velocity v |} |}) ;;;
  call (EvSleep 5).

Definition cycle (command : string) : M unit :=
  dispatch command ;;; ramp_and_publish.

Fixpoint for_each (commands : list string) (body : string -> M unit) : M unit :=
  match commands with
  | [] => ret tt
  | c :: rest => body c ;;; for_each rest body
  end.

(** The [finally] block (lines 208-222): publish the zero twist, then restore
    the terminal unless on Windows. *)
Definition shutdown (posix : bool) : M unit :=
  call (EvPublish
          {| linear := {| vx := zero; vy := zero; vz := zero |};
             angular := {| vx := zero; vy := zero; vz := zero |} |}) ;;;
  if posix then call EvRestoreTerminal else ret tt.

(** [main] from the initialisation of its variables on, for a command list. *)
Definition main_with (posix : bool) (commands : list string) : M unit :=
  set_vars all_zero ;;;
  try_except_finally
    (for_each commands cycle)
    (fun msg => call (EvPrint msg))
    (shutdown posix).

Definition commands : list string :=
  ["Straight"; "Left"; "Right"; "Left"; "Back"; "Stop"]%string.

Definition main (posix : bool) : M unit := main_with posix commands.

(** The commands sent to the robot, oldest first. *)
Fixpoint published (t : list event) : list Twist :=
  match t with
  | [] => []
  | EvPublish tw :: rest => tw :: published rest
  | _ :: rest => published rest
  end.

(** A world before [main] has run, under a given environment. *)
Definition boot (env : nat -> option exn) : world :=
  {| vars := all_zero; trace := []; clock := 0; faults := env |}.

(** An environment that never raises, and one that raises once. *)
Definition calm : nat -> option exn := fun _ => None.
Definition fault_at (n : nat) (e : exn) : nat -> option exn :=
  fun k => if Nat.eqb k n then Some e else None.


(** ** Observations used by the statements *)

(** A call of [make_simple_profile] as its caller sees it.  The body has no
    [raise] and no outside call, and comparing and adding floats does not
    raise: the call returns, whatever the step. *)
Definition advance (previous_control target max_step : float64) : M float64 :=
  ret (make_simple_profile previous_control target max_step).

(** [main] up to, and without, its [finally] block. *)
Definition before_shutdown (commands : list string) : M unit :=
  set_vars all_zero ;;;
  try_except_finally
    (for_each commands cycle)
    (fun msg => call (EvPrint msg))
    (ret tt).

(** The profiler fed with its own result [n] times, target and step fixed. *)
Fixpoint iterate (n : nat) (control target step : float64) : float64 :=
  match n with
  | O => control
  | S k => iterate k (make_simple_profile control target step) target step
  end.

(** The literals of the scenarios: [1.0], [-1.0], [0.1], [0.3], [0.4],
    [0.25], [0.5], [0.628], [0.314]. *)
Definition one : float64 := Eval vm_compute in decimal 10 10.
Definition minus_one : float64 := Eval vm_compute in opp (decimal 10 10).
Definition tenth : float64 := Eval vm_compute in decimal 1 10.
Definition three_tenths : float64 := Eval vm_compute in decimal 3 10.
Definition four_tenths : float64 := Eval vm_compute in decimal 4 10.
Definition quarter : float64 := Eval vm_compute in decimal 25 100.
Definition half : float64 := Eval vm_compute in decimal 5 10.
Definition p628 : float64 := Eval vm_compute in decimal 628 1000.
Definition p314 : float64 := Eval vm_compute in decimal 314 1000.

(** [0.9999999999999999], the float just below [1.0]. *)
Definition just_below_one : float64 := S754_finite false 9007199254740991 (-53).

(** ** Notions used by the proofs about rounding *)

(** The magnitude of [m * 2^e] in units of [2^-1074]. *)
Definition mag (m : positive) (e : Z) : Z := (Zpos m * 2 ^ (e + 1074))%Z.

(** What rounding returns for a sign, a mantissa and an exponent: a finite
    float, or the infinity of that sign when the exponent is out of range. *)
Definition pack (s : bool) (m : positive) (e : Z) : float64 :=
  if (e <=? 971)%Z then S754_finite s m e else S754_infinity s.

(** Mantissa and exponent in canonical form: at most 53 bits, exactly 53
    above the smallest exponent. *)
Definition canonical (m : positive) (e : Z) : Prop :=
  (-1074 <= e /\ Zpos m < 2 ^ 53 /\ (-1074 < e -> 2 ^ 52 <= Zpos m))%Z.

(** [ceil(a / b)] on integers, for [b > 0]. *)
Definition ceil_div (a b : Z) : Z := (- ((- a) / b))%Z.

(** An addition, or a subtraction, that did not round: the result is finite
    and its exact value is the exact sum, or difference. *)
Definition exact_add (x y : float64) : Prop :=
  finite (x + y) = true /\ scaled (x + y) = (scaled x + scaled y)%Z.

Definition exact_sub (x y : float64) : Prop :=
  finite (x - y) = true /\ scaled (x - y) = (scaled x - scaled y)%Z.

(** [2.0 ** 53] and [2.0 ** 54]: from [2^53] on, consecutive floats are at
    least [2.0] apart. *)
Definition two_pow_53 : float64 := S754_finite false 4503599627370496 1.
Definition two_pow_54 : float64 := S754_finite false 4503599627370496 2.

(** The number of calls the spec allows for reaching the target:
    [ceil(|target - prev| / step)], on the exact values. *)
Definition calls_allowed (prev target step : float64) : nat :=
  Z.to_nat (ceil_div (Z.abs (scaled target - scaled prev)) (scaled step)).

(** ** The nested helper of [main] (lines 101-113) *)

(** Assignments to one field of a message, [t.linear.x = x] and
    [t.angular.z = z]. *)
Definition set_linear_x (t : Twist) (x : float64) : Twist :=
  {| linear := {| vx := x; vy := vy (linear t); vz := vz (linear t) |};
     angular := angular t |}.

Definition set_angular_z (t : Twist) (z : float64) : Twist :=
  {| linear := linear t;
     angular := {| vx := vx (angular t); vy := vy (angular t); vz := z |} |}.

(** [reset_velocity]: a fresh [Twist()], one or two of its fields set to
    [0.0] according to the type (an unknown type is logged), and the message
    published.  [main] defines it and never calls it. *)
Definition reset_velocity (velocity_type : string) : M unit :=
  temp_twist <-
    (if String.eqb velocity_type "linear" then
       ret (set_linear_x Twist_new zero)
     else if String.eqb velocity_type "angular" then
       ret (set_angular_z Twist_new zero)
     else if String.eqb velocity_type "both" then
       ret (set_angular_z (set_linear_x Twist_new zero) zero)
     else
       call (EvError "Unknown type of velocity! Please use 'linear' or 'angular'.") ;;;
       ret Twist_new) ;;
  call (EvPublish temp_twist).

(** ** Notions used by the proofs about the loop *)

(** A finite velocity inside the symmetric envelope of bound [m]. *)
Definition within (m x : float64) : Prop :=
  finite x = true /\ leb (- m) x = true /\ leb x m = true.

(** A command the platform can execute: both driven components inside
    their envelopes. *)
Definition safe_twist (t : Twist) : Prop :=
  within WAFFLE_MAX_LIN_VEL (vx (linear t))
  /\ within WAFFLE_MAX_ANG_VEL (vz (angular t)).

(** A command that drives nothing but the forward speed and the yaw rate. *)
Definition planar_twist (t : Twist) : Prop :=
  vy (linear t) = zero /\ vz (linear t) = zero
  /\ vx (angular t) = zero /\ vy (angular t) = zero.

Definition safe_vars (v : velocities) : Prop :=
  within WAFFLE_MAX_LIN_VEL (target_linear_velocity v)
  /\ within WAFFLE_MAX_LIN_VEL (control_linear_velocity v)
  /\ within WAFFLE_MAX_ANG_VEL (target_angular_velocity v)
  /\ within WAFFLE_MAX_ANG_VEL (control_angular_velocity v).

(** The invariant of the loop: variables and every command sent so far. *)
Definition safe_world (w : world) : Prop :=
  safe_vars (vars w)
  /\ Forall (fun t => safe_twist t /\ planar_twist t) (published (trace w)).

(** An environment in which no outside call raises. *)
Definition quiet (w : world) : Prop := forall k, faults w k = None.

(** A triple for the monad: from a world satisfying [P], [m] ends in a world
    satisfying [Q] with its result, or, if it raises, in one satisfying [E]. *)
Definition hoare {A} (P : world -> Prop) (m : M A) (Q : A -> world -> Prop)
    (E : world -> Prop) : Prop :=
  forall w, P w ->
    match m w with
    | (Ok a, w') => Q a w'
    | (Raise _, w') => E w'
    end.

(** Evaluation of one cycle of the loop in a quiet environment. *)
Ltac run_cycle Hq :=
  unfold cycle, dispatch, ramp_and_publish;
  cbv [bind get_vars set_vars check_limit ret as_float show_targets
       print_values call set_target_linear set_target_angular
       set_control_linear set_control_angular
       String.eqb Ascii.eqb Bool.eqb
       vars trace clock faults all_zero
       target_linear_velocity target_angular_velocity
       control_linear_velocity control_angular_velocity];
  rewrite !Hq; cbn [fst snd faults clock trace].

(** * Properties *)

(** ** The order of binary64 *)

Section Order.

Lemma SFcompare_antisym (x y : float64) (c : comparison) :
  SFcompare x y = Some c -> SFcompare y x = Some (CompOpp c).
Proof.
  destruct x as [sx|sx| |sx mx ex], y as [sy|sy| |sy my ey]; simpl;
    try discriminate;
    try (intros H; injection H as <-;
         repeat match goal with s : bool |- _ => destruct s end;
         reflexivity).
  intros H; injection H as <-. f_equal.
  destruct sx, sy; try reflexivity;
    rewrite (Z.compare_antisym ex ey);
    destruct (ex ?= ey)%Z; simpl; try reflexivity;
    pose proof (Pos.compare_cont_antisym mx my Eq) as H; simpl in H;
    rewrite <- H; destruct (Pos.compare_cont Eq mx my); reflexivity.
Qed.

Lemma SFcompare_total (x y : float64) :
  is_nan x = false -> is_nan y = false -> exists c, SFcompare x y = Some c.
Proof.
  destruct x, y; simpl; try discriminate; intros _ _; eexists; reflexivity.
Qed.

Lemma ltb_false_leb (x y : float64) :
  is_nan x = false -> is_nan y = false -> (x <? y) = false -> (y <=? x) = true.
Proof.
  intros Hx Hy. unfold ltb, leb, SFltb, SFleb.
  destruct (SFcompare_total x y Hx Hy) as [c Hc].
  rewrite Hc, (SFcompare_antisym _ _ Hc).
  destruct c; simpl; congruence.
Qed.

Lemma ltb_leb (x y : float64) : (x <? y) = true -> (x <=? y) = true.
Proof.
  unfold ltb, leb, SFltb, SFleb. destruct (SFcompare x y) as [[]|]; congruence.
Qed.

Lemma leb_ltb_false (x y : float64) : (x <=? y) = true -> (y <? x) = false.
Proof.
  unfold ltb, leb, SFltb, SFleb.
  destruct (SFcompare x y) as [c|] eqn:Hc; [|discriminate].
  rewrite (SFcompare_antisym _ _ Hc). destruct c; simpl; congruence.
Qed.

Lemma eqb_ltb_false (x y : float64) :
  (x =? y) = true -> (x <? y) = false /\ (y <? x) = false.
Proof.
  unfold ltb, eqb, SFltb, SFeqb.
  destruct (SFcompare x y) as [c|] eqn:Hc; [|discriminate].
  rewrite (SFcompare_antisym _ _ Hc). destruct c; simpl; auto; discriminate.
Qed.

Lemma leb_refl (x : float64) : is_nan x = false -> (x <=? x) = true.
Proof.
  intros Hx. apply ltb_false_leb; auto.
  unfold ltb, SFltb. destruct (SFcompare x x) as [c|] eqn:Hc; auto.
  pose proof (SFcompare_antisym _ _ Hc) as H. rewrite Hc in H.
  destruct c; simpl in H; congruence.
Qed.

Lemma eqb_reflexive (x : float64) : is_nan x = false -> (x =? x) = true.
Proof.
  destruct x as [s|s| |s m e]; simpl; try discriminate; intros _;
    unfold eqb, SFeqb; simpl; try (destruct s; reflexivity).
  rewrite Z.compare_refl, Pos.compare_cont_refl. destruct s; reflexivity.
Qed.

Lemma finite_not_nan (x : float64) : finite x = true -> is_nan x = false.
Proof.
  unfold finite. destruct x; simpl; try reflexivity.
  rewrite ?andb_false_r. discriminate.
Qed.

End Order.

(** ** Binary64 arithmetic: what rounding preserves *)

Section Digits.
Local Open Scope Z_scope.

Lemma digits2_pos_bounds (m : positive) :
  2 ^ (Zpos (digits2_pos m) - 1) <= Zpos m < 2 ^ Zpos (digits2_pos m).
Proof.
  induction m as [m IH | m IH |]; cbn [digits2_pos].
  - rewrite Pos2Z.inj_succ.
    replace (Z.succ (Zpos (digits2_pos m)) - 1) with (Z.succ (Zpos (digits2_pos m) - 1)) by lia.
    rewrite !Z.pow_succ_r by lia. lia.
  - rewrite Pos2Z.inj_succ.
    replace (Z.succ (Zpos (digits2_pos m)) - 1) with (Z.succ (Zpos (digits2_pos m) - 1)) by lia.
    rewrite !Z.pow_succ_r by lia. lia.
  - simpl. lia.
Qed.

(** The number of digits is determined by the bounds. *)
Lemma digits_unique (v d1 d2 : Z) :
  0 <= d1 -> 0 <= d2 ->
  2 ^ (d1 - 1) <= v < 2 ^ d1 -> 2 ^ (d2 - 1) <= v < 2 ^ d2 -> d1 = d2.
Proof.
  intros H1 H2 [L1 U1] [L2 U2].
  destruct (Z.lt_trichotomy d1 d2) as [H | [H | H]]; [exfalso | assumption | exfalso].
  - assert (2 ^ d1 <= 2 ^ (d2 - 1)) by (apply Z.pow_le_mono_r; lia). lia.
  - assert (2 ^ d2 <= 2 ^ (d1 - 1)) by (apply Z.pow_le_mono_r; lia). lia.
Qed.

Lemma digits_shift (m : positive) (k : Z) (p : positive) :
  0 <= k -> Zpos p = Zpos m * 2 ^ k ->
  Zpos (digits2_pos p) = Zpos (digits2_pos m) + k.
Proof.
  intros Hk Hp.
  pose proof (digits2_pos_bounds m) as [Lm Um].
  pose proof (digits2_pos_bounds p) as Bp.
  apply digits_unique with (v := Zpos p); try lia.
  rewrite Hp.
  replace (Zpos (digits2_pos m) + k - 1) with ((Zpos (digits2_pos m) - 1) + k) by lia.
  rewrite !Z.pow_add_r by lia.
  assert (0 < 2 ^ k) by (apply Z.pow_pos_nonneg; lia).
  split; [apply Z.mul_le_mono_nonneg_r | apply Z.mul_lt_mono_pos_r]; lia.
Qed.

End Digits.

Section Canonical.
Local Open Scope Z_scope.

Lemma fexp_eq (k : Z) : fexp prec emax k = Z.max (k - 53) (-1074).
Proof. reflexivity. Qed.

Lemma digits_le_53 (m : positive) :
  Zpos (digits2_pos m) <= 53 <-> Zpos m < 2 ^ 53.
Proof.
  pose proof (digits2_pos_bounds m) as [L U]. split; intros H.
  - eapply Z.lt_le_trans; [exact U |]. apply Z.pow_le_mono_r; lia.
  - destruct (Z_le_gt_dec (Zpos (digits2_pos m)) 53) as [|G]; [assumption | exfalso].
    assert (2 ^ 53 <= 2 ^ (Zpos (digits2_pos m) - 1)) by (apply Z.pow_le_mono_r; lia).
    lia.
Qed.

Lemma digits_ge_53 (m : positive) :
  53 <= Zpos (digits2_pos m) <-> 2 ^ 52 <= Zpos m.
Proof.
  pose proof (digits2_pos_bounds m) as [L U]. split; intros H.
  - eapply Z.le_trans; [| exact L]. apply Z.pow_le_mono_r; lia.
  - destruct (Z_le_gt_dec 53 (Zpos (digits2_pos m))) as [|G]; [assumption | exfalso].
    assert (2 ^ Zpos (digits2_pos m) <= 2 ^ 52) by (apply Z.pow_le_mono_r; lia).
    lia.
Qed.

Lemma bounded_canonical (m : positive) (e : Z) :
  bounded prec emax m e = true <-> canonical m e /\ e <= 971.
Proof.
  unfold bounded, canonical_mantissa, canonical. rewrite andb_true_iff, Z.eqb_eq, Z.leb_le, fexp_eq.
  change (emax - prec) with 971.
  pose proof (digits_le_53 m) as H1. pose proof (digits_ge_53 m) as H2.
  split.
  - intros [Hc He]. split; [| assumption]. lia.
  - intros [(Hlo & Hm & Hn) He]. split; [| assumption].
    apply H1 in Hm. destruct (Z.eq_dec e (-1074)) as [-> | Hne]; [lia |].
    assert (53 <= Zpos (digits2_pos m)) by (apply H2, Hn; lia). lia.
Qed.

Lemma mag_pos (m : positive) (e : Z) : -1074 <= e -> 0 < mag m e.
Proof.
  intros He. unfold mag. apply Z.mul_pos_pos; [lia |].
  apply Z.pow_pos_nonneg; lia.
Qed.

Lemma mag_shift (m : positive) (e k : Z) :
  0 <= k -> -1074 <= e -> mag m (e + k) = mag m e * 2 ^ k.
Proof.
  intros Hk He. unfold mag.
  replace (e + k + 1074) with ((e + 1074) + k) by lia.
  rewrite Z.pow_add_r by lia. ring.
Qed.

(** On canonical forms the order of the values is the lexicographic order
    of exponent, then mantissa. *)
Lemma mag_lt_exponent (m1 m2 : positive) (e1 e2 : Z) :
  canonical m1 e1 -> canonical m2 e2 -> e1 < e2 -> mag m1 e1 < mag m2 e2.
Proof.
  intros (L1 & U1 & N1) (L2 & U2 & N2) H.
  replace e2 with (e1 + (e2 - e1)) by lia.
  rewrite mag_shift by lia.
  replace (e2 - e1) with (Z.succ (e2 - e1 - 1)) by lia.
  rewrite Z.pow_succ_r by lia.
  assert (0 < 2 ^ (e2 - e1 - 1)) by (apply Z.pow_pos_nonneg; lia).
  assert (0 < 2 ^ (e1 + 1074)) by (apply Z.pow_pos_nonneg; lia).
  unfold mag. specialize (N2 ltac:(lia)).
  change (2 ^ 52) with 4503599627370496 in N2.
  change (2 ^ 53) with 9007199254740992 in U1.
  set (a := 2 ^ (e1 + 1074)) in *. set (b := 2 ^ (e2 - e1 - 1)) in *.
  assert (Zpos m1 * a < 2 * Zpos m2 * a) by (apply Z.mul_lt_mono_pos_r; lia).
  assert (2 * Zpos m2 * a * 1 <= 2 * Zpos m2 * a * b)
    by (apply Z.mul_le_mono_nonneg_l; lia).
  lia.
Qed.

Lemma mag_compare (m1 m2 : positive) (e1 e2 : Z) :
  canonical m1 e1 -> canonical m2 e2 ->
  match e1 ?= e2 with
  | Lt => Lt
  | Gt => Gt
  | Eq => Pos.compare_cont Eq m1 m2
  end = (mag m1 e1 ?= mag m2 e2).
Proof.
  intros C1 C2. symmetry.
  destruct (Z.compare_spec e1 e2) as [-> | H | H].
  - unfold mag. change (Pos.compare_cont Eq m1 m2) with (Zpos m1 ?= Zpos m2).
    symmetry. apply Zmult_compare_compat_r. apply Z.lt_gt.
    apply Z.pow_pos_nonneg; [lia |]. destruct C2; lia.
  - apply Z.compare_lt_iff. apply mag_lt_exponent; assumption.
  - apply Z.compare_gt_iff. apply mag_lt_exponent; assumption.
Qed.

(** Comparing valid floats that are neither infinite nor NaN compares their
    exact values. *)
Lemma SFcompare_scaled (x y : float64) :
  finite x = true -> finite y = true ->
  SFcompare x y = Some (scaled x ?= scaled y).
Proof.
  unfold finite, valid.
  destruct x as [sx|sx| |sx mx ex], y as [sy|sy| |sy my ey]; cbn [is_nan is_inf negb andb valid_binary];
    rewrite ?andb_false_r, ?andb_true_r; try discriminate; intros Hx Hy.
  - reflexivity.
  - apply bounded_canonical in Hy as [(Ly & _) _].
    pose proof (@mag_pos my ey Ly) as P. fold (mag my ey) in *.
    cbn [SFcompare scaled]. fold (mag my ey).
    destruct sy; cbn [cond_Zopp]; f_equal; symmetry;
      [apply Z.compare_gt_iff | apply Z.compare_lt_iff]; lia.
  - apply bounded_canonical in Hx as [(Lx & _) _].
    pose proof (@mag_pos mx ex Lx) as P.
    cbn [SFcompare scaled]. fold (mag mx ex).
    destruct sx; cbn [cond_Zopp]; f_equal; symmetry;
      [apply Z.compare_lt_iff | apply Z.compare_gt_iff]; lia.
  - apply bounded_canonical in Hx as [Cx _]. apply bounded_canonical in Hy as [Cy _].
    pose proof (@mag_pos mx ex ltac:(destruct Cx; lia)) as Px.
    pose proof (@mag_pos my ey ltac:(destruct Cy; lia)) as Py.
    pose proof (mag_compare Cx Cy) as Hc.
    cbn [SFcompare scaled]. fold (mag mx ex) (mag my ey). f_equal.
    destruct sx, sy; cbn [cond_Zopp].
    + rewrite Z.compare_opp, (Z.compare_antisym (mag mx ex)), <- Hc.
      destruct (ex ?= ey); reflexivity.
    + symmetry; apply Z.compare_lt_iff; lia.
    + symmetry; apply Z.compare_gt_iff; lia.
    + rewrite <- Hc. reflexivity.
Qed.

End Canonical.

Section Shifts.
Local Open Scope Z_scope.

Lemma iter_xO (m d : positive) :
  Zpos (Pos.iter xO m d) = Zpos m * 2 ^ Zpos d.
Proof.
  induction d as [| d IH] using Pos.peano_ind.
  - cbn [Pos.iter]. change (2 ^ 1) with 2. lia.
  - rewrite Pos.iter_succ, Pos2Z.inj_succ, Z.pow_succ_r by lia.
    rewrite Pos2Z.inj_xO, IH. ring.
Qed.

(** Aligning a mantissa to a lower exponent multiplies it by a power of
    two and changes nothing else. *)
Lemma shl_align_spec (m : positive) (e e' : Z) :
  e' <= e ->
  Zpos (fst (shl_align m e e')) = Zpos m * 2 ^ (e - e')
  /\ snd (shl_align m e e') = e'.
Proof.
  intros H. unfold shl_align.
  destruct (e' - e) as [| p | p] eqn:E; cbn [fst snd].
  - replace (e - e') with 0 by lia. split; lia.
  - lia.
  - rewrite iter_xO. replace (e - e') with (Zpos p) by lia. split; reflexivity.
Qed.

Lemma iter_pos_iter {A : Type} (f : A -> A) (p : positive) (x : A) :
  iter_pos f p x = Pos.iter f x p.
Proof.
  revert x. induction p as [p IH | p IH |]; intros x; cbn [iter_pos Pos.iter].
  - rewrite !IH, <- !Pos.iter_swap. reflexivity.
  - rewrite !IH. reflexivity.
  - reflexivity.
Qed.

Lemma shr_1_spec (st : shr_record) :
  0 <= shr_m st ->
  shr_m (shr_1 st) = shr_m st / 2
  /\ shr_r (shr_1 st) = Z.odd (shr_m st)
  /\ shr_s (shr_1 st) = shr_r st || shr_s st.
Proof.
  destruct st as [m r s]. cbn [shr_m shr_r shr_s]. intros Hm.
  destruct m as [| [p | p |] | p]; cbn [shr_1 shr_m shr_r shr_s]; try lia.
  - split; [reflexivity | split; reflexivity].
  - split; [| split; reflexivity]. rewrite Pos2Z.inj_xI. 
    apply Z.div_unique with (r := 1); lia.
  - split; [| split; reflexivity]. rewrite Pos2Z.inj_xO.
    apply Z.div_unique with (r := 0); lia.
  - split; [reflexivity | split; reflexivity].
Qed.

(** Shifting right by [p] bits divides the mantissa by [2^p], and records
    no lost bit when the division is exact. *)
Lemma shr_iter_spec (m : Z) (p : positive) :
  0 <= m ->
  let st := iter_pos shr_1 p (Build_shr_record m false false) in
  shr_m st = m / 2 ^ Zpos p
  /\ (m mod 2 ^ Zpos p = 0 -> shr_r st = false /\ shr_s st = false).
Proof.
  intros Hm. cbv zeta. rewrite iter_pos_iter.
  induction p as [| p IH] using Pos.peano_ind.
  - cbn [Pos.iter]. 
    destruct (shr_1_spec (Build_shr_record m false false) Hm) as (H1 & H2 & H3).
    cbn [shr_m shr_r shr_s] in *. change (2 ^ 1) with 2.
    split; [assumption |]. intros Hz. rewrite H2, H3. split; [| reflexivity].
    rewrite <- Z.negb_even. rewrite Zeven_mod. rewrite Hz. reflexivity.
  - rewrite Pos.iter_succ. destruct IH as [IH1 IH2].
    set (st := Pos.iter shr_1 _ p) in *.
    assert (P2 : 0 < 2 ^ Zpos p) by (apply Z.pow_pos_nonneg; lia).
    assert (Hst : 0 <= shr_m st) by (rewrite IH1; apply Z.div_pos; lia).
    destruct (shr_1_spec st Hst) as (H1 & H2 & H3).
    rewrite Pos2Z.inj_succ, Z.pow_succ_r by lia.
    split.
    + rewrite H1, IH1. rewrite Z.div_div by lia. f_equal. ring.
    + intros Hz. rewrite H2, H3.
      assert (Hq : m = 2 * 2 ^ Zpos p * (m / (2 * 2 ^ Zpos p)))
        by (apply Z.div_exact; [lia | assumption]).
      set (q := m / (2 * 2 ^ Zpos p)) in *.
      assert (Hz' : m mod 2 ^ Zpos p = 0).
      { rewrite Hq. replace (2 * 2 ^ Zpos p * q) with ((2 * q) * 2 ^ Zpos p) by ring.
        apply Z.mod_mul. lia. }
      destruct (IH2 Hz') as [-> ->]. split; [| reflexivity].
      rewrite IH1. replace (m / 2 ^ Zpos p) with (2 * q).
      * rewrite <- Z.negb_even, Z.even_mul. reflexivity.
      * rewrite Hq at 1. replace (2 * 2 ^ Zpos p * q) with ((2 * q) * 2 ^ Zpos p) by ring.
        rewrite Z.div_mul by lia. reflexivity.
Qed.

Lemma round_nearest_even_range (q : Z) (l : location) :
  (round_nearest_even q l = q \/ round_nearest_even q l = q + 1)
  /\ (l = loc_Exact -> round_nearest_even q l = q).
Proof.
  destruct l as [| []]; cbn [round_nearest_even]; try destruct (Z.even q); auto;
    split; auto; discriminate.
Qed.

End Shifts.

Section Rounding.
Local Open Scope Z_scope.

(** Rounding down to a multiple of [2^N] stays above every float below. *)
Lemma round_down_above (M N ma k : Z) :
  0 <= N -> 0 <= k -> 0 < ma < 2 ^ 53 -> 2 ^ (52 + N) <= M ->
  ma * 2 ^ k <= M -> ma * 2 ^ k <= M / 2 ^ N * 2 ^ N.
Proof.
  intros HN Hk Hma HM HA.
  assert (PN : 0 < 2 ^ N) by (apply Z.pow_pos_nonneg; lia).
  assert (Pk : 0 < 2 ^ k) by (apply Z.pow_pos_nonneg; lia).
  destruct (Z_le_gt_dec N k) as [Hle | Hgt].
  - replace k with ((k - N) + N) in * by lia.
    rewrite Z.pow_add_r in * by lia. rewrite Z.mul_assoc in *.
    apply Z.mul_le_mono_nonneg_r; [lia |].
    apply Z.div_le_lower_bound; lia.
  - assert (Hq : 2 ^ 52 <= M / 2 ^ N).
    { apply Z.div_le_lower_bound; [lia |]. rewrite <- Z.pow_add_r by lia.
      replace (N + 52) with (52 + N) by lia. assumption. }
    assert (H1 : ma * 2 ^ k < 2 ^ 53 * 2 ^ k) by (apply Z.mul_lt_mono_pos_r; lia).
    assert (H2 : 2 ^ 53 * 2 ^ k <= 2 ^ 52 * 2 ^ N).
    { rewrite <- !Z.pow_add_r by lia. apply Z.pow_le_mono_r; lia. }
    assert (H3 : 2 ^ 52 * 2 ^ N <= M / 2 ^ N * 2 ^ N)
      by (apply Z.mul_le_mono_nonneg_r; lia).
    lia.
Qed.

(** Rounding up to a multiple of [2^N] stays below every float above. *)
Lemma round_up_below (M N ma k : Z) :
  0 <= N -> 0 <= k -> 0 < ma < 2 ^ 53 -> 2 ^ (52 + N) <= M ->
  M mod 2 ^ N <> 0 ->
  M <= ma * 2 ^ k -> (M / 2 ^ N + 1) * 2 ^ N <= ma * 2 ^ k.
Proof.
  intros HN Hk Hma HM Hr HA.
  assert (PN : 0 < 2 ^ N) by (apply Z.pow_pos_nonneg; lia).
  assert (Pk : 0 < 2 ^ k) by (apply Z.pow_pos_nonneg; lia).
  destruct (Z_le_gt_dec N k) as [Hle | Hgt].
  - replace k with ((k - N) + N) in * by lia.
    rewrite Z.pow_add_r in * by lia. rewrite Z.mul_assoc in *.
    apply Z.mul_le_mono_nonneg_r; [lia |].
    set (a := ma * 2 ^ (k - N)) in *.
    pose proof (Z.div_mod M (2 ^ N) ltac:(lia)) as E.
    pose proof (Z.mod_pos_bound M (2 ^ N) PN) as B.
    assert (M / 2 ^ N < a); [| lia].
    apply Z.div_lt_upper_bound; [lia |].
    destruct (Z_le_gt_dec (2 ^ N * a) M) as [Hc |]; [exfalso | lia].
    assert (M = a * 2 ^ N) by lia.
    apply Hr. subst M. apply Z.mod_mul. lia.
  - exfalso.
    assert (H1 : ma * 2 ^ k < 2 ^ 53 * 2 ^ k) by (apply Z.mul_lt_mono_pos_r; lia).
    assert (H2 : 2 ^ 53 * 2 ^ k <= 2 ^ (52 + N)).
    { rewrite <- !Z.pow_add_r by lia. apply Z.pow_le_mono_r; lia. }
    lia.
Qed.

Lemma pow2_53 : 2 ^ 53 = 9007199254740992.
Proof. reflexivity. Qed.

Lemma pow2_52 : 2 ^ 52 = 4503599627370496.
Proof. reflexivity. Qed.

(** No shift needed: the mantissa is kept as it is. *)
Lemma binary_round_aux_exact (s : bool) (mz : positive) (ez : Z) :
  fexp prec emax (Zpos (digits2_pos mz) + ez) = ez ->
  binary_round_aux prec emax s (Zpos mz) ez loc_Exact = pack s mz ez.
Proof.
  intros H. unfold binary_round_aux, shr_fexp.
  cbn [Zdigits2 shr_record_of_loc]. rewrite H, Z.sub_diag.
  cbn [shr shr_m loc_of_shr_record round_nearest_even Zdigits2 shr_record_of_loc].
  rewrite H, Z.sub_diag. cbn [shr shr_m]. reflexivity.
Qed.


(** More than 53 bits: the mantissa is shifted right, rounded to one of its
    two neighbours, and renormalised if the rounding carried. *)
Lemma binary_round_aux_round (s : bool) (m : positive) (e : Z) :
  53 < Zpos (digits2_pos m) -> -1074 <= e ->
  exists mr er,
    binary_round_aux prec emax s (Zpos m) e loc_Exact = pack s mr er
    /\ canonical mr er
    /\ 2 ^ (52 + (Zpos (digits2_pos m) - 53)) <= Zpos m
    /\ (let N := Zpos (digits2_pos m) - 53 in
        let q := Zpos m / 2 ^ N in
        (mag mr er = q * 2 ^ N * 2 ^ (e + 1074)
         \/ mag mr er = (q + 1) * 2 ^ N * 2 ^ (e + 1074))
        /\ (Zpos m mod 2 ^ N = 0 -> mag mr er = q * 2 ^ N * 2 ^ (e + 1074))).
Proof.
  intros Hd He. cbv zeta.
  pose proof (digits2_pos_bounds m) as [Lm Um].
  set (d := Zpos (digits2_pos m)) in *.
  destruct (d - 53) as [| p | p] eqn:EN; try lia.
  assert (PN : 0 < 2 ^ Zpos p) by (apply Z.pow_pos_nonneg; lia).
  assert (Hlow : 2 ^ (52 + Zpos p) <= Zpos m).
  { replace (52 + Zpos p) with (d - 1) by lia. assumption. }
  set (q := Zpos m / 2 ^ Zpos p).
  assert (Hq : 2 ^ 52 <= q < 2 ^ 53).
  { split.
    - apply Z.div_le_lower_bound; [lia |]. rewrite <- Z.pow_add_r by lia.
      replace (Zpos p + 52) with (52 + Zpos p) by lia. assumption.
    - apply Z.div_lt_upper_bound; [lia |]. rewrite <- Z.pow_add_r by lia.
      replace (Zpos p + 53) with d by lia. assumption. }
  (* the first shift *)
  unfold binary_round_aux, shr_fexp.
  cbn [Zdigits2 shr_record_of_loc]. fold d.
  rewrite fexp_eq. rewrite Z.max_l by lia.
  replace (d + e - 53 - e) with (Zpos p) by lia.
  cbn [shr].
  destruct (@shr_iter_spec (Zpos m) p ltac:(lia)) as [Hm1 Hex].
  set (st := iter_pos shr_1 p _) in *. fold q in Hm1.
  destruct (round_nearest_even_range (shr_m st) (loc_of_shr_record st)) as [Hrange Hexact].
  rewrite Hm1 in Hrange, Hexact |- *.
  set (m1 := round_nearest_even q (loc_of_shr_record st)) in *.
  assert (Hexact' : Zpos m mod 2 ^ Zpos p = 0 -> m1 = q).
  { intros Hz. apply Hexact. destruct (Hex Hz) as [Hr Hs].
    destruct st as [ms rs ss]. cbn [shr_r shr_s] in Hr, Hs. subst rs ss. reflexivity. }
  (* the second shift *)
  destruct m1 as [| p1 | p1] eqn:Em1; try lia.
  cbn [Zdigits2 shr_record_of_loc].
  destruct (Z.eq_dec (Zpos p1) (2 ^ 53)) as [Hcarry | Hnocarry].
  - (* the rounding carried to 2^53 *)
    rewrite pow2_53 in Hcarry. injection Hcarry as ->.
    cbn [digits2_pos Pos.succ]. rewrite fexp_eq.
    rewrite Z.max_l by lia.
    replace (54 + (e + Zpos p) - 53 - (e + Zpos p)) with 1 by lia.
    cbn [shr iter_pos shr_1 shr_m].
    exists 4503599627370496%positive, (e + Zpos p + 1).
    split; [reflexivity |]. split; [| split; [assumption |]].
    + unfold canonical. rewrite pow2_53, pow2_52. lia.
    + assert (Hq1 : q + 1 = 2 ^ 53) by (rewrite pow2_53; lia).
      assert (Hmag : mag 4503599627370496 (e + Zpos p + 1)
                     = (q + 1) * 2 ^ Zpos p * 2 ^ (e + 1074)).
      { rewrite Hq1. unfold mag.
        replace (e + Zpos p + 1 + 1074) with (1 + (Zpos p + (e + 1074))) by lia.
        rewrite !Z.pow_add_r by lia. rewrite pow2_53. change (2 ^ 1) with 2. ring. }
      split; [right; exact Hmag |].
      intros Hz. specialize (Hexact' Hz). lia.
  - assert (Hp1 : 2 ^ 52 <= Zpos p1 < 2 ^ 53) by lia.
    assert (Hd1 : Zpos (digits2_pos p1) = 53).
    { pose proof (digits2_pos_bounds p1) as B1.
      apply digits_unique with (v := Zpos p1); lia. }
    rewrite Hd1, fexp_eq. rewrite Z.max_l by lia.
    replace (53 + (e + Zpos p) - 53 - (e + Zpos p)) with 0 by lia.
    cbn [shr shr_m].
    exists p1, (e + Zpos p).
    split; [reflexivity |]. split; [| split; [assumption |]].
    + unfold canonical. lia.
    + assert (Hmag : mag p1 (e + Zpos p) = Zpos p1 * 2 ^ Zpos p * 2 ^ (e + 1074)).
      { unfold mag. replace (e + Zpos p + 1074) with (Zpos p + (e + 1074)) by lia.
        rewrite Z.pow_add_r by lia. ring. }
      rewrite Hmag. split.
      * destruct Hrange as [-> | ->]; [left | right]; reflexivity.
      * intros Hz. rewrite (Hexact' Hz). reflexivity.
Qed.


(** Rounding a positive mantissa at an exponent of the format gives a
    canonical float (or overflows to infinity) that is monotone against
    every float: above those below the exact value, below those above. *)
Lemma binary_round_spec (s : bool) (m : positive) (e : Z) :
  -1074 <= e ->
  exists mr er,
    binary_round prec emax s m e = pack s mr er
    /\ canonical mr er
    /\ (forall ma k, 0 <= k -> 0 < ma < 2 ^ 53 ->
          ma * 2 ^ k <= mag m e -> ma * 2 ^ k <= mag mr er)
    /\ (forall ma k, 0 <= k -> 0 < ma < 2 ^ 53 ->
          mag m e <= ma * 2 ^ k -> mag mr er <= ma * 2 ^ k).
Proof.
  intros He. unfold binary_round.
  pose proof (digits2_pos_bounds m) as [Lm Um].
  set (d := Zpos (digits2_pos m)) in *.
  assert (Hd0 : 0 < d) by (unfold d; lia).
  destruct (Z_le_gt_dec d 53) as [Hle | Hgt].
  - (* at most 53 bits: aligned, then kept *)
    set (f := fexp prec emax (d + e)).
    assert (Hf : f = Z.max (d + e - 53) (-1074)) by reflexivity.
    clearbody f.
    assert (Hfe : f <= e) by lia.
    destruct (shl_align_spec m Hfe) as [Hmz Hez].
    destruct (shl_align m e f) as [mz ez]. cbn [fst snd] in Hmz, Hez. subst ez.
    assert (Hdz : Zpos (digits2_pos mz) = d + (e - f))
      by (apply digits_shift; [lia | assumption]).
    rewrite binary_round_aux_exact
      by (rewrite Hdz, fexp_eq; lia).
    exists mz, f.
    assert (Hmag : mag mz f = mag m e).
    { unfold mag. rewrite Hmz. replace (e + 1074) with ((e - f) + (f + 1074)) by lia.
      rewrite (Z.pow_add_r 2 (e - f) (f + 1074)) by lia. ring. }
    split; [reflexivity |]. split; [| rewrite Hmag; split; auto].
    unfold canonical. split; [lia |]. split.
    + apply digits_le_53. lia.
    + intros Hlo. apply digits_ge_53. lia.
  - (* more than 53 bits: rounded *)
    assert (Hf : fexp prec emax (d + e) = d + e - 53) by (rewrite fexp_eq; lia).
    rewrite Hf. unfold shl_align.
    destruct (d + e - 53 - e) as [| p | p] eqn:E; try lia.
    destruct (@binary_round_aux_round s m e ltac:(fold d; lia) He)
      as (mr & er & Hr & Hc & Hlow & Hval & Hexact).
    fold d in Hlow, Hval, Hexact.
    set (N := d - 53) in *. set (q := Zpos m / 2 ^ N) in *.
    exists mr, er. split; [exact Hr |]. split; [exact Hc |].
    assert (PN : 0 < 2 ^ N) by (apply Z.pow_pos_nonneg; lia).
    assert (PE : 0 < 2 ^ (e + 1074)) by (apply Z.pow_pos_nonneg; lia).
    assert (HN : 0 <= N) by lia.
    (* the exact value and the shift, in units of 2^-1074 *)
    set (N' := N + (e + 1074)).
    assert (HN' : 2 ^ N' = 2 ^ N * 2 ^ (e + 1074))
      by (unfold N'; apply Z.pow_add_r; lia).
    assert (Hquot : mag m e / 2 ^ N' = q).
    { unfold mag. rewrite HN'. apply Z.div_mul_cancel_r; lia. }
    assert (Hrem : mag m e mod 2 ^ N' = (Zpos m mod 2 ^ N) * 2 ^ (e + 1074)).
    { unfold mag. rewrite HN'. apply Z.mul_mod_distr_r; lia. }
    assert (Hbig : 2 ^ (52 + N') <= mag m e).
    { unfold mag, N'. replace (52 + (N + (e + 1074))) with ((52 + N) + (e + 1074)) by lia.
      rewrite Z.pow_add_r by lia. apply Z.mul_le_mono_nonneg_r; lia. }
    assert (Hdown : q * 2 ^ N * 2 ^ (e + 1074) <= mag mr er).
    { destruct Hval as [-> | ->]; [lia |].
      apply Z.mul_le_mono_nonneg_r; [lia |]. apply Z.mul_le_mono_nonneg_r; lia. }
    assert (Hup : mag mr er <= (q + 1) * 2 ^ N * 2 ^ (e + 1074)).
    { destruct Hval as [-> | ->]; [| lia].
      apply Z.mul_le_mono_nonneg_r; [lia |]. apply Z.mul_le_mono_nonneg_r; lia. }
    split.
    + intros ma k Hk Hma HA.
      eapply Z.le_trans; [| exact Hdown].
      pose proof (@round_down_above (mag m e) N' ma k ltac:(unfold N'; lia) Hk Hma Hbig HA) as H.
      rewrite Hquot, HN' in H. lia.
    + intros ma k Hk Hma HA.
      destruct (Z.eq_dec (Zpos m mod 2 ^ N) 0) as [Hz | Hnz].
      * rewrite (Hexact Hz).
        assert (Hm : Zpos m = q * 2 ^ N).
        { unfold q. rewrite Z.mul_comm. apply Z.div_exact; lia. }
        rewrite <- Hm. exact HA.
      * eapply Z.le_trans; [exact Hup |].
        assert (Hr' : mag m e mod 2 ^ N' <> 0).
        { rewrite Hrem. intros Hc0. apply Z.mul_eq_0 in Hc0. lia. }
        pose proof (@round_up_below (mag m e) N' ma k ltac:(unfold N'; lia) Hk Hma Hbig Hr' HA) as H.
        rewrite Hquot, HN' in H. lia.
Qed.

End Rounding.

Section Monotone.
Local Open Scope Z_scope.

Lemma leb_scaled (x y : float64) :
  finite x = true -> finite y = true ->
  (leb x y = true <-> scaled x <= scaled y).
Proof.
  intros Hx Hy. unfold leb, SFleb. rewrite (SFcompare_scaled x y Hx Hy).
  destruct (Z.compare_spec (scaled x) (scaled y)); split; intros; try lia;
    try reflexivity; discriminate.
Qed.

Lemma ltb_scaled (x y : float64) :
  finite x = true -> finite y = true ->
  (ltb x y = true <-> scaled x < scaled y).
Proof.
  intros Hx Hy. unfold ltb, SFltb. rewrite (SFcompare_scaled x y Hx Hy).
  destruct (Z.compare_spec (scaled x) (scaled y)); split; intros; try lia;
    try reflexivity; discriminate.
Qed.

Lemma finite_S754_finite (s : bool) (m : positive) (e : Z) :
  finite (S754_finite s m e) = true <-> canonical m e /\ e <= 971.
Proof.
  unfold finite, valid. cbn [valid_binary is_nan is_inf negb].
  rewrite !andb_true_r. apply bounded_canonical.
Qed.

(** What [pack] is: a finite float when the exponent fits, else infinity. *)
Lemma pack_cases (s : bool) (m : positive) (e : Z) :
  canonical m e ->
  (e <= 971 /\ pack s m e = S754_finite s m e /\ finite (pack s m e) = true)
  \/ (971 < e /\ pack s m e = S754_infinity s).
Proof.
  intros Hc. unfold pack. destruct (Z.leb_spec e 971) as [H | H].
  - left. split; [assumption |]. split; [reflexivity |].
    apply finite_S754_finite. split; assumption.
  - right. split; [assumption | reflexivity].
Qed.

Lemma pack_valid (s : bool) (m : positive) (e : Z) :
  canonical m e -> valid (pack s m e) = true.
Proof.
  intros Hc. destruct (pack_cases s Hc) as [(_ & _ & H) | (_ & ->)]; [| reflexivity].
  unfold finite in H. rewrite !andb_true_iff in H. tauto.
Qed.

Lemma canonical_exponent_le (m1 m2 : positive) (e1 e2 : Z) :
  canonical m1 e1 -> canonical m2 e2 -> mag m1 e1 <= mag m2 e2 -> e1 <= e2.
Proof.
  intros C1 C2 H. destruct (Z_le_gt_dec e1 e2) as [| G]; [assumption | exfalso].
  pose proof (mag_lt_exponent C2 C1 ltac:(lia)). lia.
Qed.

(** The heart of it: [binary_normalize] is monotone against a float [x].
    [S] is the exact sum, in units of [2^ez], and [X] the value of [x] in
    the same units. *)
Lemma normalize_mono (sx : bool) (mx : positive) (ex ez S : Z) :
  finite (S754_finite sx mx ex) = true -> -1074 <= ez <= ex ->
  let x := S754_finite sx mx ex in
  let X := cond_Zopp sx (Zpos mx * 2 ^ (ex - ez)) in
  (X <= S -> leb x (binary_normalize prec emax S ez false) = true)
  /\ (S <= X -> leb (binary_normalize prec emax S ez false) x = true).
Proof.
  intros Hfx Hez. cbv zeta.
  pose proof Hfx as Hx. apply finite_S754_finite in Hx as [Cx Ex].
  assert (Pc : 0 < 2 ^ (ez + 1074)) by (apply Z.pow_pos_nonneg; lia).
  assert (Pd : 0 < 2 ^ (ex - ez)) by (apply Z.pow_pos_nonneg; lia).
  assert (Hmx : mag mx ex = Zpos mx * 2 ^ (ex - ez) * 2 ^ (ez + 1074)).
  { unfold mag. replace (ex + 1074) with ((ex - ez) + (ez + 1074)) by lia.
    rewrite Z.pow_add_r by lia. ring. }
  assert (Hrep : 0 < Zpos mx < 2 ^ 53) by (destruct Cx as (_ & ? & _); lia).
  assert (Hk : 0 <= ex + 1074) by lia.
  assert (HA : Zpos mx * 2 ^ (ex + 1074) = mag mx ex) by reflexivity.
  set (P := Zpos mx * 2 ^ (ex - ez)) in *.
  assert (PP : 0 < P) by (unfold P; lia).
  destruct S as [| p | p]; cbn [binary_normalize].
  - (* the sum is zero *)
    split; intros H; apply leb_scaled; try reflexivity; try assumption;
      cbn [scaled]; fold (mag mx ex); destruct sx; cbn [cond_Zopp] in *; lia.
  - (* the sum is positive *)
    destruct (@binary_round_spec false p ez ltac:(lia)) as (mr & er & -> & Cr & R1 & R2).
    assert (Hp : mag p ez = Zpos p * 2 ^ (ez + 1074)) by reflexivity.
    split; intros H.
    + destruct sx; cbn [cond_Zopp] in H.
      * destruct (pack_cases false Cr) as [(_ & -> & _) | (_ & ->)]; reflexivity.
      * assert (HR : mag mx ex <= mag mr er).
        { rewrite <- HA. apply R1; try assumption. rewrite HA, Hmx, Hp.
          apply Z.mul_le_mono_nonneg_r; lia. }
        destruct (pack_cases false Cr) as [(_ & E & F) | (_ & ->)]; [| reflexivity].
        apply leb_scaled; try assumption. rewrite E. cbn [scaled cond_Zopp].
        exact HR.
    + destruct sx; cbn [cond_Zopp] in H; [lia |].
      assert (HR : mag mr er <= mag mx ex).
      { rewrite <- HA. apply R2; try assumption. rewrite HA, Hmx, Hp.
        apply Z.mul_le_mono_nonneg_r; lia. }
      pose proof (canonical_exponent_le Cr Cx HR) as Hle.
      destruct (pack_cases false Cr) as [(_ & E & F) | (? & _)]; [| lia].
      apply leb_scaled; try assumption. rewrite E. cbn [scaled cond_Zopp].
      exact HR.
  - (* the sum is negative *)
    destruct (@binary_round_spec true p ez ltac:(lia)) as (mr & er & -> & Cr & R1 & R2).
    assert (Hp : mag p ez = Zpos p * 2 ^ (ez + 1074)) by reflexivity.
    split; intros H.
    + destruct sx; cbn [cond_Zopp] in H; [| lia].
      assert (HR : mag mr er <= mag mx ex).
      { rewrite <- HA. apply R2; try assumption. rewrite HA, Hmx, Hp.
        apply Z.mul_le_mono_nonneg_r; lia. }
      pose proof (canonical_exponent_le Cr Cx HR) as Hle.
      destruct (pack_cases true Cr) as [(_ & E & F) | (? & _)]; [| lia].
      apply leb_scaled; try assumption. rewrite E. cbn [scaled cond_Zopp].
      fold (mag mx ex) (mag mr er). lia.
    + destruct sx; cbn [cond_Zopp] in H.
      * assert (HR : mag mx ex <= mag mr er).
        { rewrite <- HA. apply R1; try assumption. rewrite HA, Hmx, Hp.
          apply Z.mul_le_mono_nonneg_r; lia. }
        destruct (pack_cases true Cr) as [(_ & E & F) | (_ & ->)]; [| reflexivity].
        apply leb_scaled; try assumption. rewrite E. cbn [scaled cond_Zopp].
        fold (mag mx ex) (mag mr er). lia.
      * destruct (pack_cases true Cr) as [(_ & -> & _) | (_ & ->)]; reflexivity.
Qed.

End Monotone.

Section AddSub.
Local Open Scope Z_scope.

Lemma valid_finite (s : bool) (m : positive) (e : Z) :
  valid (S754_finite s m e) = true -> finite (S754_finite s m e) = true.
Proof.
  unfold finite. cbn [is_nan is_inf negb]. intros ->. reflexivity.
Qed.

Lemma binary_normalize_valid (S ez : Z) :
  -1074 <= ez -> valid (binary_normalize prec emax S ez false) = true.
Proof.
  intros Hez. destruct S as [| p | p]; cbn [binary_normalize]; [reflexivity | |].
  - destruct (@binary_round_spec false p ez Hez) as (mr & er & -> & Cr & _).
    apply pack_valid; assumption.
  - destruct (@binary_round_spec true p ez Hez) as (mr & er & -> & Cr & _).
    apply pack_valid; assumption.
Qed.

Lemma valid_exponent (s : bool) (m : positive) (e : Z) :
  valid (S754_finite s m e) = true -> -1074 <= e.
Proof.
  intros H. apply valid_finite, finite_S754_finite in H. destruct H as [(? & _) _].
  assumption.
Qed.

(** The sum and the difference of two floats is a float. *)
Lemma add_valid (x y : float64) :
  valid x = true -> valid y = true -> valid (F64.add x y) = true.
Proof.
  intros Hx Hy.
  destruct x as [sx|sx| |sx mx ex], y as [sy|sy| |sy my ey];
    try (destruct sx, sy; reflexivity); try reflexivity; try assumption.
  unfold F64.add, SFadd. apply binary_normalize_valid.
  apply valid_exponent in Hx, Hy. lia.
Qed.

Lemma sub_valid (x y : float64) :
  valid x = true -> valid y = true -> valid (F64.sub x y) = true.
Proof.
  intros Hx Hy.
  destruct x as [sx|sx| |sx mx ex], y as [sy|sy| |sy my ey];
    try (destruct sx, sy; reflexivity); try reflexivity; try assumption.
  unfold F64.sub, SFsub. apply binary_normalize_valid.
  apply valid_exponent in Hx, Hy. lia.
Qed.

Lemma aligned (s : bool) (m : positive) (e ez : Z) :
  ez <= e ->
  cond_Zopp s (Zpos (fst (shl_align m e ez))) = cond_Zopp s (Zpos m * 2 ^ (e - ez)).
Proof.
  intros H. destruct (shl_align_spec m H) as [-> _]. reflexivity.
Qed.

(** Adding a float that is not negative does not decrease a float, and
    subtracting one does not increase it, rounding included.  The only
    sums with no value are those of opposite infinities. *)
Lemma add_nonneg_ge (x y : float64) :
  valid x = true -> valid y = true -> is_nan x = false ->
  leb zero y = true ->
  is_nan (F64.add x y) = true \/ leb x (F64.add x y) = true.
Proof.
  intros Hx Hy Nx Py.
  destruct x as [sx|sx| |sx mx ex]; try discriminate;
    destruct y as [sy|sy| |sy my ey]; try discriminate;
    try (destruct sx, sy; try discriminate; auto; fail).
  - (* finite + zero *)
    right. apply leb_refl. reflexivity.
  - (* finite + finite *)
    destruct sy; [discriminate |]. right.
    unfold F64.add, SFadd.
    pose proof (valid_exponent _ _ _ Hx) as Lx. pose proof (valid_exponent _ _ _ Hy) as Ly.
    rewrite !aligned by lia.
    apply (@normalize_mono sx mx ex (Z.min ex ey)); [apply valid_finite, Hx | lia |].
    cbn [cond_Zopp].
    assert (0 < 2 ^ (ey - Z.min ex ey)) by (apply Z.pow_pos_nonneg; lia). lia.
Qed.

Lemma sub_nonneg_le (x y : float64) :
  valid x = true -> valid y = true -> is_nan x = false ->
  leb zero y = true ->
  is_nan (F64.sub x y) = true \/ leb (F64.sub x y) x = true.
Proof.
  intros Hx Hy Nx Py.
  destruct x as [sx|sx| |sx mx ex]; try discriminate;
    destruct y as [sy|sy| |sy my ey]; try discriminate;
    try (destruct sx, sy; try discriminate; auto; fail).
  - (* finite - zero *)
    right. apply leb_refl. reflexivity.
  - (* finite - finite *)
    destruct sy; [discriminate |]. right.
    unfold F64.sub, SFsub.
    pose proof (valid_exponent _ _ _ Hx) as Lx. pose proof (valid_exponent _ _ _ Hy) as Ly.
    rewrite !aligned by lia.
    apply (@normalize_mono sx mx ex (Z.min ex ey)); [apply valid_finite, Hx | lia |].
    cbn [cond_Zopp].
    assert (0 < 2 ^ (ey - Z.min ex ey)) by (apply Z.pow_pos_nonneg; lia). lia.
Qed.

End AddSub.

(** ** The limiter *)

Section Limiter.

Variables lo hi : float64.
Hypothesis lo_not_nan : is_nan lo = false.
Hypothesis hi_not_nan : is_nan hi = false.
Hypothesis lo_le_hi : (lo <=? hi) = true.

Lemma constraint_within (v : float64) :
  is_nan v = false ->
  (lo <=? constraint v lo hi) = true /\ (constraint v lo hi <=? hi) = true.
Proof.
  intros Hv. unfold constraint.
  destruct (v <? lo) eqn:Hlo.
  - split; [apply leb_refl | ]; assumption.
  - destruct (hi <? v) eqn:Hhi.
    + split; [assumption | apply leb_refl; assumption].
    + split; apply ltb_false_leb; assumption.
Qed.

Lemma constraint_identity (v : float64) :
  (lo <=? v) = true -> (v <=? hi) = true -> constraint v lo hi = v.
Proof.
  intros H1 H2. unfold constraint.
  rewrite (leb_ltb_false _ _ H1), (leb_ltb_false _ _ H2). reflexivity.
Qed.

End Limiter.

(** C2: for every finite input and for both axis kinds, [check_limit] returns
    a float inside the closed interval of that kind, and the intervals are the
    symmetric ones of the source: [-0.26, 0.26] for "linear" and
    [-1.82, 1.82] for "angular". *)
Theorem check_limit_within_bounds (v : float64) (model : string) (w : world) :
  finite v = true ->
  (exists r, check_limit "linear" v model w = (Ok (Some r), w)
             /\ (- decimal 26 100 <=? r) = true
             /\ (r <=? decimal 26 100) = true)
  /\ (exists r, check_limit "angular" v model w = (Ok (Some r), w)
                /\ (- decimal 182 100 <=? r) = true
                /\ (r <=? decimal 182 100) = true).
Proof.
  intros Hv. apply finite_not_nan in Hv.
  change (decimal 26 100) with WAFFLE_MAX_LIN_VEL.
  change (decimal 182 100) with WAFFLE_MAX_ANG_VEL.
  split; eexists; (split; [reflexivity |]);
    apply constraint_within; auto.
Qed.

Lemma check_limit_within_bounds_witness :
  finite tenth = true
  /\ (exists r, check_limit "linear" tenth default_model (boot calm)
                = (Ok (Some r), boot calm)
                /\ (- decimal 26 100 <=? r) = true
                /\ (r <=? decimal 26 100) = true)
  /\ (exists r, check_limit "angular" tenth default_model (boot calm)
                = (Ok (Some r), boot calm)
                /\ (- decimal 182 100 <=? r) = true
                /\ (r <=? decimal 182 100) = true).
Proof.
  split; [reflexivity |].
  apply (@check_limit_within_bounds tenth default_model (boot calm)).
  reflexivity.
Defined.

(** C9: for either axis kind, an input already inside that kind's bounds
    comes back unchanged. *)
Theorem check_limit_identity_in_range (v : float64) (model : string) (w : world) :
  ((- WAFFLE_MAX_LIN_VEL <=? v) = true -> (v <=? WAFFLE_MAX_LIN_VEL) = true ->
   check_limit "linear" v model w = (Ok (Some v), w))
  /\ ((- WAFFLE_MAX_ANG_VEL <=? v) = true -> (v <=? WAFFLE_MAX_ANG_VEL) = true ->
      check_limit "angular" v model w = (Ok (Some v), w)).
Proof.
  split; intros H1 H2; unfold check_limit, ret;
    rewrite (constraint_identity _ _ _ H1 H2); reflexivity.
Qed.

(** C10: the [model] argument has no influence on what [check_limit] does. *)
Theorem check_limit_ignores_model (type_of_velocity : string)
    (velocity_value : float64) (model1 model2 : string) (w : world) :
  check_limit type_of_velocity velocity_value model1 w
  = check_limit type_of_velocity velocity_value model2 w.
Proof. reflexivity. Qed.

(** C7 (what the code does): with a kind that is neither "linear" nor
    "angular", [check_limit] logs one error line and returns [None]; it does
    not raise. *)
Theorem check_limit_unknown_kind_returns_none :
  check_limit "sideways" tenth default_model (boot calm)
  = (Ok None,
     {| vars := all_zero;
        trace := [EvError "Unknown type of velocity! Please use 'linear' or 'angular'."];
        clock := 1; faults := calm |}).
Proof. reflexivity. Qed.

Lemma check_limit_never_raises_by_itself (kind : string) (v : float64)
    (model : string) (w : world) :
  faults w (clock w) = None ->
  exists r w', check_limit kind v model w = (Ok r, w').
Proof.
  intros Hf. unfold check_limit.
  destruct (String.eqb kind "angular"); [eexists; eexists; reflexivity |].
  destruct (String.eqb kind "linear"); [eexists; eexists; reflexivity |].
  unfold bind, call. rewrite Hf. eexists; eexists; reflexivity.
Qed.

Lemma check_limit_identity_in_range_witness :
  ((- WAFFLE_MAX_LIN_VEL <=? tenth) = true /\ (tenth <=? WAFFLE_MAX_LIN_VEL) = true
   /\ check_limit "linear" tenth default_model (boot calm)
      = (Ok (Some tenth), boot calm))
  /\ ((- WAFFLE_MAX_ANG_VEL <=? one) = true /\ (one <=? WAFFLE_MAX_ANG_VEL) = true
      /\ check_limit "angular" one default_model (boot calm)
         = (Ok (Some one), boot calm)).
Proof.
  split; (split; [reflexivity | split; [reflexivity |]]).
  - apply (proj1 (check_limit_identity_in_range tenth default_model (boot calm)));
      reflexivity.
  - apply (proj2 (check_limit_identity_in_range one default_model (boot calm)));
      reflexivity.
Defined.

(** ** The profiler: what one call computes *)

(** C1: [make_simple_profile previous_control target max_step] is
    [min(target, previous_control + max_step)] when the target is above the
    previous control, [max(target, previous_control - max_step)] when it is
    below, and the target when the two are equal; [min], [max], [+] and [-]
    are Python's on floats. *)
Theorem make_simple_profile_cases (previous_control target max_step : float64) :
  ((target >? previous_control) = true ->
     make_simple_profile previous_control target max_step
     = py_min target (previous_control + max_step))
  /\ ((target <? previous_control) = true ->
        make_simple_profile previous_control target max_step
        = py_max target (previous_control - max_step))
  /\ ((target =? previous_control) = true ->
        make_simple_profile previous_control target max_step = target).
Proof.
  unfold make_simple_profile. repeat split; intros H.
  - rewrite H. reflexivity.
  - rewrite (leb_ltb_false _ _ (ltb_leb _ _ H)), H. reflexivity.
  - destruct (eqb_ltb_false _ _ H) as [H1 H2]. rewrite H1, H2. reflexivity.
Qed.

Lemma make_simple_profile_cases_witness :
  ((one >? zero) = true
   /\ make_simple_profile zero one tenth = py_min one (zero + tenth))
  /\ ((zero <? one) = true
      /\ make_simple_profile one zero tenth = py_max zero (one - tenth))
  /\ ((one =? one) = true /\ make_simple_profile one one tenth = one).
Proof.
  split; [| split]; (split; [reflexivity |]).
  - apply (proj1 (make_simple_profile_cases zero one tenth)). reflexivity.
  - apply (proj1 (proj2 (make_simple_profile_cases one zero tenth))). reflexivity.
  - apply (proj2 (proj2 (make_simple_profile_cases one one tenth))). reflexivity.
Defined.

(** [min] and [max] of Python pick one of their arguments, and on floats
    that are not NaN the smaller, respectively the greater. *)
Lemma py_min_spec (a b : float64) :
  is_nan a = false -> is_nan b = false ->
  (py_min a b = a \/ py_min a b = b)
  /\ (py_min a b <=? a) = true /\ (py_min a b <=? b) = true.
Proof.
  intros Ha Hb. unfold py_min. destruct (b <? a) eqn:H.
  - split; [right; reflexivity |]. split; [apply ltb_leb | apply leb_refl]; auto.
  - split; [left; reflexivity |].
    split; [apply leb_refl | apply ltb_false_leb]; auto.
Qed.

Lemma py_max_spec (a b : float64) :
  is_nan a = false -> is_nan b = false ->
  (py_max a b = a \/ py_max a b = b)
  /\ (a <=? py_max a b) = true /\ (b <=? py_max a b) = true.
Proof.
  intros Ha Hb. unfold py_max. destruct (a <? b) eqn:H.
  - split; [right; reflexivity |]. split; [apply ltb_leb | apply leb_refl]; auto.
  - split; [left; reflexivity |].
    split; [apply leb_refl | apply ltb_false_leb]; auto.
Qed.

(** ** The profiler: one call *)

Lemma ltb_not_nan (x y : float64) :
  ltb x y = true -> is_nan x = false /\ is_nan y = false.
Proof.
  unfold ltb, SFltb. destruct x, y; cbn; try discriminate; auto.
Qed.

Lemma finite_valid (x : float64) : finite x = true -> valid x = true.
Proof. unfold finite. rewrite !andb_true_iff. tauto. Qed.

(** The three branches of [make_simple_profile], with what rounding leaves
    true of each. *)
Lemma profile_rising (previous_control target max_step : float64) :
  valid previous_control = true -> valid max_step = true ->
  leb zero max_step = true ->
  ltb previous_control target = true ->
  (make_simple_profile previous_control target max_step = target
   /\ ltb (F64.add previous_control max_step) target = false)
  \/ (make_simple_profile previous_control target max_step
      = F64.add previous_control max_step
      /\ ltb (F64.add previous_control max_step) target = true
      /\ leb previous_control (F64.add previous_control max_step) = true).
Proof.
  intros Vp Vs Hs Hup. unfold make_simple_profile, py_min. rewrite Hup.
  destruct (ltb (F64.add previous_control max_step) target) eqn:Hlt.
  - right. split; [reflexivity |]. split; [reflexivity |].
    destruct (ltb_not_nan _ _ Hlt) as [Nr _].
    destruct (ltb_not_nan _ _ Hup) as [Np _].
    destruct (@add_nonneg_ge _ _ Vp Vs Np Hs) as [Hn | Hle];
      [congruence | exact Hle].
  - left. split; reflexivity.
Qed.

Lemma profile_falling (previous_control target max_step : float64) :
  valid previous_control = true -> valid max_step = true ->
  leb zero max_step = true ->
  ltb target previous_control = true ->
  (make_simple_profile previous_control target max_step = target
   /\ ltb target (F64.sub previous_control max_step) = false)
  \/ (make_simple_profile previous_control target max_step
      = F64.sub previous_control max_step
      /\ ltb target (F64.sub previous_control max_step) = true
      /\ leb (F64.sub previous_control max_step) previous_control = true).
Proof.
  intros Vp Vs Hs Hdown. unfold make_simple_profile, py_max.
  rewrite (leb_ltb_false _ _ (ltb_leb _ _ Hdown)), Hdown.
  destruct (ltb target (F64.sub previous_control max_step)) eqn:Hgt.
  - right. split; [reflexivity |]. split; [reflexivity |].
    destruct (ltb_not_nan _ _ Hgt) as [_ Nr].
    destruct (ltb_not_nan _ _ Hdown) as [_ Np].
    destruct (@sub_nonneg_le _ _ Vp Vs Np Hs) as [Hn | Hle];
      [congruence | exact Hle].
  - left. split; reflexivity.
Qed.

Lemma profile_level (previous_control target max_step : float64) :
  ltb previous_control target = false -> ltb target previous_control = false ->
  make_simple_profile previous_control target max_step = target.
Proof.
  intros H1 H2. unfold make_simple_profile. rewrite H1, H2. reflexivity.
Qed.

(** C4: for floats that are numbers and a positive step, the result of the
    profiler lies in the closed interval between the previous control and
    the target, whichever of the two is the smaller: it approaches the target
    and never overshoots it, rounding included. *)
Theorem make_simple_profile_between (previous_control target max_step : float64) :
  valid previous_control = true -> valid target = true -> valid max_step = true ->
  is_nan previous_control = false -> is_nan target = false ->
  ltb zero max_step = true ->
  (leb previous_control (make_simple_profile previous_control target max_step) = true
   /\ leb (make_simple_profile previous_control target max_step) target = true)
  \/ (leb target (make_simple_profile previous_control target max_step) = true
      /\ leb (make_simple_profile previous_control target max_step) previous_control = true).
Proof.
  intros Vp Vt Vs Np Nt Hs.
  pose proof (ltb_leb _ _ Hs) as Hs'.
  destruct (ltb previous_control target) eqn:Hup.
  - left.
    destruct (@profile_rising _ _ _ Vp Vs Hs' Hup) as [[-> _] | (-> & Hlt & Hle)].
    + split; [apply ltb_leb; exact Hup | apply leb_refl; exact Nt].
    + split; [exact Hle | apply ltb_leb; exact Hlt].
  - destruct (ltb target previous_control) eqn:Hdown.
    + right.
      destruct (@profile_falling _ _ _ Vp Vs Hs' Hdown) as [[-> _] | (-> & Hgt & Hle)].
      * split; [apply leb_refl; exact Nt | apply ltb_leb; exact Hdown].
      * split; [apply ltb_leb; exact Hgt | exact Hle].
    + left. rewrite (@profile_level _ _ max_step Hup Hdown).
      split; [apply ltb_false_leb; assumption | apply leb_refl; exact Nt].
Qed.

Lemma make_simple_profile_between_witness :
  valid zero = true /\ valid one = true /\ valid tenth = true
  /\ is_nan zero = false /\ is_nan one = false /\ ltb zero tenth = true
  /\ ((leb zero (make_simple_profile zero one tenth) = true
       /\ leb (make_simple_profile zero one tenth) one = true)
      \/ (leb one (make_simple_profile zero one tenth) = true
          /\ leb (make_simple_profile zero one tenth) zero = true)).
Proof.
  do 6 (split; [reflexivity |]).
  apply (@make_simple_profile_between zero one tenth); reflexivity.
Defined.

Lemma binary_normalize_not_nan (S ez : Z) :
  (-1074 <= ez)%Z -> is_nan (binary_normalize prec emax S ez false) = false.
Proof.
  intros Hez. destruct S as [| p | p]; cbn [binary_normalize]; [reflexivity | |].
  - destruct (@binary_round_spec false p ez Hez) as (mr & er & -> & _).
    unfold pack. destruct (er <=? 971)%Z; reflexivity.
  - destruct (@binary_round_spec true p ez Hez) as (mr & er & -> & _).
    unfold pack. destruct (er <=? 971)%Z; reflexivity.
Qed.

(** Finite floats have a sum and a difference: possibly an infinity, on
    overflow, never a NaN. *)
Lemma add_finite_not_nan (x y : float64) :
  finite x = true -> finite y = true -> is_nan (F64.add x y) = false.
Proof.
  intros Hx Hy.
  destruct x as [sx|sx| |sx mx ex], y as [sy|sy| |sy my ey]; try discriminate;
    try (destruct sx, sy; reflexivity); try reflexivity.
  unfold F64.add, SFadd. apply binary_normalize_not_nan.
  apply finite_S754_finite in Hx as [(? & _) _], Hy as [(? & _) _]. lia.
Qed.

Lemma sub_finite_not_nan (x y : float64) :
  finite x = true -> finite y = true -> is_nan (F64.sub x y) = false.
Proof.
  intros Hx Hy.
  destruct x as [sx|sx| |sx mx ex], y as [sy|sy| |sy my ey]; try discriminate;
    try (destruct sx, sy; reflexivity); try reflexivity.
  unfold F64.sub, SFsub. apply binary_normalize_not_nan.
  apply finite_S754_finite in Hx as [(? & _) _], Hy as [(? & _) _]. lia.
Qed.

Lemma positive_scaled (x : float64) :
  finite x = true -> ltb zero x = true -> (0 < scaled x)%Z.
Proof.
  intros Fx H. apply (@ltb_scaled zero x) in H; [exact H | reflexivity | exact Fx].
Qed.

(** C3 (as amended): for finite floats and a positive step the control
    moves toward the target by at most the rounded step: the result is
    between the previous control and [previous_control + max_step] as the
    float addition returns it (respectively [previous_control - max_step]);
    and whenever that addition or subtraction is exact, the exact change is
    at most the step. *)
Theorem make_simple_profile_step_bound
    (previous_control target max_step : float64) :
  finite previous_control = true -> finite target = true ->
  finite max_step = true -> ltb zero max_step = true ->
  (ltb previous_control target = true ->
     leb previous_control (make_simple_profile previous_control target max_step) = true
     /\ leb (make_simple_profile previous_control target max_step)
            (F64.add previous_control max_step) = true)
  /\ (ltb target previous_control = true ->
        leb (F64.sub previous_control max_step)
            (make_simple_profile previous_control target max_step) = true
        /\ leb (make_simple_profile previous_control target max_step)
               previous_control = true)
  /\ ((ltb previous_control target = true -> exact_add previous_control max_step) ->
      (ltb target previous_control = true -> exact_sub previous_control max_step) ->
      finite (make_simple_profile previous_control target max_step) = true
      /\ (Z.abs (scaled (make_simple_profile previous_control target max_step)
                 - scaled previous_control) <= scaled max_step)%Z).
Proof.
  intros Fp Ft Fs Hs.
  pose proof (finite_not_nan _ Fp) as Np. pose proof (finite_not_nan _ Ft) as Nt.
  pose proof (@add_finite_not_nan _ _ Fp Fs) as Na.
  pose proof (@sub_finite_not_nan _ _ Fp Fs) as Nb.
  pose proof (finite_valid _ Fp) as Vp. pose proof (finite_valid _ Fs) as Vs.
  pose proof (ltb_leb _ _ Hs) as Hs'.
  pose proof (@positive_scaled _ Fs Hs) as HS.
  split; [| split].
  - intros Hup.
    destruct (@profile_rising _ _ _ Vp Vs Hs' Hup) as [[-> Hge] | (-> & Hlt & Hle)].
    + split; [apply ltb_leb; exact Hup | apply ltb_false_leb; assumption].
    + split; [exact Hle | apply leb_refl; exact Na].
  - intros Hdown.
    destruct (@profile_falling _ _ _ Vp Vs Hs' Hdown) as [[-> Hge] | (-> & Hgt & Hle)].
    + split; [apply ltb_false_leb; assumption | apply ltb_leb; exact Hdown].
    + split; [apply leb_refl; exact Nb | exact Hle].
  - intros Hadd Hsub.
    destruct (ltb previous_control target) eqn:Hup.
    + destruct (Hadd eq_refl) as [Fa Ea].
      pose proof (proj1 (@ltb_scaled _ _ Fp Ft) Hup) as Hlt0.
      destruct (@profile_rising _ _ _ Vp Vs Hs' Hup) as [[-> Hge] | (-> & Hlt & Hle)].
      * split; [exact Ft |].
        apply ltb_false_leb in Hge; try assumption.
        apply (@leb_scaled _ _ Ft Fa) in Hge. lia.
      * split; [exact Fa |]. lia.
    + destruct (ltb target previous_control) eqn:Hdown.
      * destruct (Hsub eq_refl) as [Fb Eb].
        pose proof (proj1 (@ltb_scaled _ _ Ft Fp) Hdown) as Hlt0.
        destruct (@profile_falling _ _ _ Vp Vs Hs' Hdown) as [[-> Hge] | (-> & Hgt & Hle)].
        -- split; [exact Ft |].
           apply ltb_false_leb in Hge; try assumption.
           apply (@leb_scaled _ _ Fb Ft) in Hge. lia.
        -- split; [exact Fb |]. lia.
      * rewrite (@profile_level _ _ max_step Hup Hdown). split; [exact Ft |].
        apply ltb_false_leb in Hup, Hdown; try assumption.
        apply (@leb_scaled _ _ Ft Fp) in Hup. apply (@leb_scaled _ _ Fp Ft) in Hdown.
        lia.
Qed.

Lemma make_simple_profile_step_bound_witness :
  finite zero = true /\ finite one = true /\ finite quarter = true
  /\ ltb zero quarter = true
  /\ exact_add zero quarter
  /\ finite (make_simple_profile zero one quarter) = true
  /\ (Z.abs (scaled (make_simple_profile zero one quarter) - scaled zero)
      <= scaled quarter)%Z.
Proof.
  do 4 (split; [reflexivity |]).
  assert (E : exact_add zero quarter) by (split; vm_compute; reflexivity).
  split; [exact E |].
  apply (proj2 (proj2 (@make_simple_profile_step_bound zero one quarter
                         eq_refl eq_refl eq_refl eq_refl))).
  - intros _. exact E.
  - intros H. vm_compute in H. discriminate H.
Defined.

(** C3 as the spec states it fails: from [0.3] toward [1.0] with the step
    [0.1] the profiler returns [0.4], the float nearest to the sum; the
    change, [0.4 - 0.3], is more than [0.1], both as Python computes it
    ([0.10000000000000003]) and exactly. *)
Lemma step_bound_exceeded :
  finite three_tenths = true /\ finite one = true /\ finite tenth = true
  /\ ltb zero tenth = true
  /\ make_simple_profile three_tenths one tenth = four_tenths
  /\ leb (F64.abs (F64.sub (make_simple_profile three_tenths one tenth) three_tenths))
         tenth = false
  /\ (scaled tenth
      < Z.abs (scaled (make_simple_profile three_tenths one tenth)
               - scaled three_tenths))%Z.
Proof.
  do 6 (split; [vm_compute; reflexivity |]). vm_compute. reflexivity.
Qed.

(** ** The profiler: iteration *)

Lemma iterate_add (a b : nat) (x target step : float64) :
  iterate (a + b) x target step = iterate b (iterate a x target step) target step.
Proof.
  revert x. induction a as [| a IH]; intros x; cbn [iterate Nat.add];
    [reflexivity | apply IH].
Qed.

Lemma eqb_scaled (x y : float64) :
  finite x = true -> finite y = true ->
  (eqb x y = true <-> scaled x = scaled y).
Proof.
  intros Hx Hy. unfold eqb, SFeqb. rewrite (@SFcompare_scaled x y Hx Hy).
  destruct (Z.compare_spec (scaled x) (scaled y)); split; intros; try lia;
    try reflexivity; discriminate.
Qed.

(** Once at the target (Python's [==]), every further call returns the
    target. *)
Lemma iterate_stays (n : nat) (x target step : float64) :
  is_nan target = false -> eqb x target = true ->
  eqb (iterate n x target step) target = true.
Proof.
  intros Nt. revert x. induction n as [| n IH]; intros x Hx; cbn [iterate];
    [exact Hx |].
  apply IH. unfold eqb, SFeqb in Hx.
  destruct (SFcompare x target) as [c |] eqn:Hc; [| discriminate].
  destruct c; try discriminate.
  rewrite profile_level.
  - apply eqb_reflexive; exact Nt.
  - unfold ltb, SFltb. rewrite Hc. reflexivity.
  - unfold ltb, SFltb. rewrite (SFcompare_antisym _ _ Hc). reflexivity.
Qed.

Lemma ceil_div_spec (a b : Z) : (0 < b -> 0 <= a ->
  0 <= ceil_div a b /\ a <= ceil_div a b * b)%Z.
Proof.
  intros Hb Ha. unfold ceil_div.
  pose proof (Z.div_mod (- a) b ltac:(lia)) as E.
  pose proof (Z.mod_pos_bound (- a) b Hb) as B.
  assert ((- a) / b <= 0)%Z by (apply Z.div_le_upper_bound; lia).
  split; [lia |]. nia.
Qed.

Section Convergence.
Local Open Scope Z_scope.

Variables target step : float64.
Hypothesis target_finite : finite target = true.
Hypothesis step_finite : finite step = true.
Hypothesis step_positive : ltb zero step = true.

(** What is left to travel, exactly. *)
Let gap (x : float64) : Z := Z.abs (scaled target - scaled x).

(** One call with an exact addition closes the gap by a whole step, or
    closes it. *)
Lemma one_step_closes (x : float64) :
  finite x = true ->
  (ltb x target = true -> exact_add x step) ->
  (ltb target x = true -> exact_sub x step) ->
  finite (make_simple_profile x target step) = true
  /\ gap (make_simple_profile x target step) <= Z.max 0 (gap x - scaled step).
Proof.
  intros Fx Hadd Hsub. unfold gap.
  pose proof (finite_not_nan _ Fx) as Nx.
  pose proof (finite_not_nan _ target_finite) as Nt.
  pose proof (finite_valid _ Fx) as Vx. pose proof (finite_valid _ step_finite) as Vs.
  pose proof (ltb_leb _ _ step_positive) as Hs'.
  pose proof (@positive_scaled _ step_finite step_positive) as HS.
  destruct (ltb x target) eqn:Hup.
  - destruct (Hadd eq_refl) as [Fa Ea].
    pose proof (proj1 (@ltb_scaled _ _ Fx target_finite) Hup) as Hlt0.
    destruct (@profile_rising _ _ _ Vx Vs Hs' Hup) as [[-> Hge] | (-> & Hlt & Hle)].
    + split; [exact target_finite | lia].
    + split; [exact Fa |].
      apply (@ltb_scaled _ _ Fa target_finite) in Hlt. lia.
  - destruct (ltb target x) eqn:Hdown.
    + destruct (Hsub eq_refl) as [Fb Eb].
      pose proof (proj1 (@ltb_scaled _ _ target_finite Fx) Hdown) as Hlt0.
      destruct (@profile_falling _ _ _ Vx Vs Hs' Hdown) as [[-> Hge] | (-> & Hgt & Hle)].
      * split; [exact target_finite | lia].
      * split; [exact Fb |].
        apply (@ltb_scaled _ _ target_finite Fb) in Hgt. lia.
    + rewrite (@profile_level _ _ step Hup Hdown).
      split; [exact target_finite | lia].
Qed.

Lemma converges_within (n : nat) (x : float64) :
  finite x = true ->
  gap x <= Z.of_nat n * scaled step ->
  (forall k, (k < n)%nat ->
     (ltb (iterate k x target step) target = true
      -> exact_add (iterate k x target step) step)
     /\ (ltb target (iterate k x target step) = true
         -> exact_sub (iterate k x target step) step)) ->
  eqb (iterate n x target step) target = true.
Proof.
  revert x. induction n as [| n IH]; intros x Fx Hgap Hex.
  - cbn [iterate]. apply eqb_scaled; try assumption. unfold gap in Hgap. lia.
  - cbn [iterate].
    destruct (Hex O ltac:(lia)) as [Ha Hb]. cbn [iterate] in Ha, Hb.
    destruct (one_step_closes Fx Ha Hb) as [Fr Hr].
    pose proof (@positive_scaled _ step_finite step_positive) as HS.
    assert (0 <= Z.of_nat n * scaled step) by (apply Z.mul_nonneg_nonneg; lia).
    apply IH; [exact Fr | lia |].
    intros k Hk. apply (Hex (S k)). lia.
Qed.

End Convergence.

(** C5 (as amended): for finite floats and a positive step, if the
    additions (or subtractions) made on the way are exact, iterating the
    profiler with target and step fixed is at the target (Python's [==])
    after [ceil(|target - prev| / step)] calls, and after any larger number
    of calls. *)
Theorem iterate_reaches_target_when_exact (prev target step : float64) :
  finite prev = true -> finite target = true -> finite step = true ->
  ltb zero step = true ->
  (forall k, (k < calls_allowed prev target step)%nat ->
     (ltb (iterate k prev target step) target = true
      -> exact_add (iterate k prev target step) step)
     /\ (ltb target (iterate k prev target step) = true
         -> exact_sub (iterate k prev target step) step)) ->
  forall n, (calls_allowed prev target step <= n)%nat ->
    eqb (iterate n prev target step) target = true.
Proof.
  intros Fp Ft Fs Hs Hex n Hn.
  pose proof (@positive_scaled _ Fs Hs) as HS.
  destruct (@ceil_div_spec (Z.abs (scaled target - scaled prev)) (scaled step)
              HS ltac:(lia)) as [C0 C1].
  replace n with (calls_allowed prev target step
                  + (n - calls_allowed prev target step))%nat by lia.
  rewrite iterate_add. apply iterate_stays; [apply finite_not_nan; exact Ft |].
  apply converges_within; try assumption.
  unfold calls_allowed. rewrite Z2Nat.id by exact C0. exact C1.
Qed.

Lemma iterate_reaches_target_when_exact_witness :
  finite zero = true /\ finite one = true /\ finite quarter = true
  /\ ltb zero quarter = true
  /\ calls_allowed zero one quarter = 4%nat
  /\ eqb (iterate 4 zero one quarter) one = true
  /\ eqb (iterate 7 zero one quarter) one = true.
Proof.
  do 4 (split; [reflexivity |]).
  assert (N : calls_allowed zero one quarter = 4%nat) by (vm_compute; reflexivity).
  split; [exact N |].
  assert (Hex : forall k, (k < calls_allowed zero one quarter)%nat ->
     (ltb (iterate k zero one quarter) one = true
      -> exact_add (iterate k zero one quarter) quarter)
     /\ (ltb one (iterate k zero one quarter) = true
         -> exact_sub (iterate k zero one quarter) quarter)).
  { rewrite N. intros k Hk.
    destruct k as [| [| [| [| k]]]]; try lia;
      (split; [intros _; split; vm_compute; reflexivity
              | intros H; vm_compute in H; discriminate H]). }
  split;
    apply (@iterate_reaches_target_when_exact zero one quarter
             eq_refl eq_refl eq_refl eq_refl Hex);
    rewrite N; lia.
Defined.

(** C5 as the spec states it fails: from [0.0] toward [1.0] with the step
    [0.1] the spec allows [ceil(1.0 / 0.1) = 10] calls; after ten calls the
    control is [0.9999999999999999], not the target, which is reached by the
    eleventh. *)
Lemma convergence_bound_exceeded :
  finite zero = true /\ finite one = true /\ finite tenth = true
  /\ ltb zero tenth = true
  /\ calls_allowed zero one tenth = 10%nat
  /\ iterate 10 zero one tenth = just_below_one
  /\ eqb (iterate 10 zero one tenth) one = false
  /\ iterate 11 zero one tenth = one.
Proof.
  do 7 (split; [vm_compute; reflexivity |]). vm_compute. reflexivity.
Qed.

(** Absorption: from [2^53] the step [1.0] is lost in the rounding of every
    addition, and the control never leaves [2^53], however many calls are
    made; the spec's bound would be [2^53] calls. *)
Lemma absorption_never_converges (n : nat) :
  iterate n two_pow_53 two_pow_54 one = two_pow_53
  /\ eqb two_pow_53 two_pow_54 = false.
Proof.
  split; [| reflexivity].
  induction n as [| n IH]; cbn [iterate]; [reflexivity |].
  replace (make_simple_profile two_pow_53 two_pow_54 one) with two_pow_53
    by (vm_compute; reflexivity).
  exact IH.
Qed.

(** ** The scenarios of the spec, run on the model *)

(** Reversal: from [0.628] toward [-0.628] with the step [0.314] the
    control walks through zero, one step per call. *)
Example reversal_scenario :
  iterate 1 p628 (- p628) p314 = p314
  /\ iterate 2 p628 (- p628) p314 = zero
  /\ iterate 3 p628 (- p628) p314 = (- p314)%f64
  /\ iterate 4 p628 (- p628) p314 = (- p628)%f64
  /\ iterate 5 p628 (- p628) p314 = (- p628)%f64.
Proof. repeat split; vm_compute; reflexivity. Qed.

(** Clamp: [0.5] and [-0.5] are cut to the linear bounds, [0.1] is kept. *)
Example clamp_scenario :
  fst (check_limit "linear" half default_model (boot calm))
  = Ok (Some WAFFLE_MAX_LIN_VEL)
  /\ fst (check_limit "linear" (- half) default_model (boot calm))
     = Ok (Some (- WAFFLE_MAX_LIN_VEL)%f64)
  /\ fst (check_limit "linear" tenth default_model (boot calm))
     = Ok (Some tenth).
Proof. repeat split; vm_compute; reflexivity. Qed.

(** The commands [main] publishes on an undisturbed run: the linear and
    angular controls of the six cycles, then the zero twist of [finally]. *)
Example main_publishes :
  map (fun t => (vx (linear t), vz (angular t)))
      (published (trace (snd (main true (boot calm)))))
  = [(tenth, zero); (LIN_VEL_STEP_SIZE, p314); (LIN_VEL_STEP_SIZE, (- p314)%f64);
     (LIN_VEL_STEP_SIZE, p314); ((- tenth)%f64, zero); (zero, zero); (zero, zero)].
Proof. vm_compute. reflexivity. Qed.

(** ** The profiler: non-positive steps *)

(** Adding or subtracting [0.0] gives the same float, [-0.0 + 0.0 = 0.0]
    apart. *)
Lemma add_zero (x : float64) :
  x + zero = x \/ (x = S754_zero true /\ x + zero = zero).
Proof. destruct x as [[]|[]| |s m e]; simpl; auto. Qed.

Lemma sub_zero (x : float64) : x - zero = x.
Proof. destruct x as [[]|[]| |s m e]; reflexivity. Qed.

Lemma make_simple_profile_step_zero (previous_control target : float64) :
  is_nan previous_control = false -> is_nan target = false ->
  (make_simple_profile previous_control target zero =? previous_control) = true.
Proof.
  intros Hp Ht. unfold make_simple_profile, py_min, py_max.
  rewrite sub_zero.
  destruct (previous_control <? target) eqn:Hlt.
  - destruct (add_zero previous_control) as [E | [E1 E2]].
    + rewrite E, Hlt. apply eqb_reflexive; assumption.
    + rewrite E2. subst previous_control.
      destruct target as [|[]| |[]]; try discriminate; reflexivity.
  - destruct (target <? previous_control) eqn:Hgt.
    + apply eqb_reflexive; assumption.
    + unfold eqb, SFeqb. unfold ltb, SFltb in Hlt, Hgt.
      destruct (SFcompare_total target previous_control Ht Hp) as [c Hc].
      rewrite (SFcompare_antisym _ _ Hc) in Hlt. rewrite Hc in Hgt |- *.
      destruct c; simpl in *; congruence.
Qed.

(** C8 (as amended): the profiler validates nothing.  Whatever the step,
    zero and negative ones included, the call returns the value of the three
    cases and changes nothing else; with the step [0.0] that value equals the
    previous control, so the control makes no progress. *)
Theorem advance_never_rejects (previous_control target max_step : float64)
    (w : world) :
  is_nan previous_control = false -> is_nan target = false ->
  advance previous_control target max_step w
  = (Ok (make_simple_profile previous_control target max_step), w)
  /\ (forall e w', advance previous_control target max_step w <> (Raise e, w'))
  /\ (make_simple_profile previous_control target zero =? previous_control) = true.
Proof.
  intros Hp Ht. split; [reflexivity |]. split; [discriminate |].
  apply make_simple_profile_step_zero; assumption.
Qed.

Lemma advance_never_rejects_witness :
  is_nan zero = false /\ is_nan one = false
  /\ advance zero one minus_one (boot calm)
     = (Ok (make_simple_profile zero one minus_one), boot calm)
  /\ (forall e w', advance zero one minus_one (boot calm) <> (Raise e, w'))
  /\ (make_simple_profile zero one zero =? zero) = true.
Proof.
  split; [reflexivity |]. split; [reflexivity |].
  apply (@advance_never_rejects zero one minus_one (boot calm)); reflexivity.
Defined.

(** C8 as the spec states it fails: with the steps [0.0] and [-1.0] the call
    returns a float ([0.0], and [-1.0], away from the target [1.0]). *)
Lemma advance_accepts_nonpositive_step :
  advance zero one zero (boot calm) = (Ok zero, boot calm)
  /\ advance zero one minus_one (boot calm) = (Ok minus_one, boot calm).
Proof. split; reflexivity. Qed.

(** ** The shutdown of [main] *)

Lemma published_app (t1 t2 : list event) :
  published (t1 ++ t2) = published t1 ++ published t2.
Proof.
  induction t1 as [|e t1 IH]; simpl; [reflexivity |].
  destruct e; simpl; rewrite IH; reflexivity.
Qed.

(** [main] is the loop phase followed by the [finally] block, which runs
    whatever the loop phase came to. *)
Lemma main_with_unfold (posix : bool) (cmds : list string) (w : world) :
  main_with posix cmds w
  = match shutdown posix (snd (before_shutdown cmds w)) with
    | (Ok _, w3) => (fst (before_shutdown cmds w), w3)
    | (Raise e, w3) => (Raise e, w3)
    end.
Proof.
  unfold main_with, before_shutdown, bind, set_vars, try_except_finally.
  destruct (for_each cmds cycle _) as [r1 w1].
  destruct (match r1 with
            | Raise (PyException msg) => call (EvPrint msg) w1
            | _ => (r1, w1)
            end) as [r2 w2].
  unfold ret; simpl. reflexivity.
Qed.

Lemma main_with_world (posix : bool) (cmds : list string) (w : world) :
  snd (main_with posix cmds w) = snd (shutdown posix (snd (before_shutdown cmds w))).
Proof.
  rewrite main_with_unfold.
  destruct (shutdown posix (snd (before_shutdown cmds w))) as [[u|e] w3];
    reflexivity.
Qed.

(** The [finally] block on its own: one publish, of the zero twist, and no
    variable touched. *)
Lemma shutdown_spec (posix : bool) (w : world) :
  faults w (clock w) = None ->
  published (trace (snd (shutdown posix w))) = published (trace w) ++ [Twist_new]
  /\ vars (snd (shutdown posix w)) = vars w.
Proof.
  intros Hf. unfold shutdown, bind, call. rewrite Hf.
  destruct posix; simpl.
  - destruct (faults w (S (clock w))); simpl;
      rewrite ?published_app; simpl; rewrite ?app_nil_r; split; reflexivity.
  - rewrite published_app. split; reflexivity.
Qed.

(** C6 (as amended): after any command sequence and under any environment
    (no fault, a fault caught by [except], an interrupt that propagates), if
    the transport accepts the final publish then the [finally] block emits
    exactly one command, the zero twist, after every command of the loop; it
    leaves the four velocity variables as the loop left them.  On the normal
    completion of the source's own command list those are all [0.0]. *)
Theorem shutdown_emits_final_zero (posix : bool) (cmds : list string)
    (w : world) :
  faults (snd (before_shutdown cmds w)) (clock (snd (before_shutdown cmds w)))
  = None ->
  published (trace (snd (main_with posix cmds w)))
  = published (trace (snd (before_shutdown cmds w))) ++ [Twist_new]
  /\ vars (snd (main_with posix cmds w)) = vars (snd (before_shutdown cmds w))
  /\ vars (snd (main posix (boot calm))) = all_zero.
Proof.
  intros Hf. rewrite main_with_world.
  destruct (shutdown_spec posix _ Hf) as [Hp Hv].
  split; [exact Hp | split; [exact Hv |]].
  destruct posix; vm_compute; reflexivity.
Qed.

Lemma shutdown_emits_final_zero_witness :
  faults (snd (before_shutdown commands (boot (fault_at 2 KeyboardInterrupt))))
    (clock (snd (before_shutdown commands (boot (fault_at 2 KeyboardInterrupt)))))
  = None
  /\ published (trace (snd (main_with true commands
                             (boot (fault_at 2 KeyboardInterrupt)))))
     = published (trace (snd (before_shutdown commands
                                (boot (fault_at 2 KeyboardInterrupt)))))
       ++ [Twist_new]
  /\ vars (snd (main_with true commands (boot (fault_at 2 KeyboardInterrupt))))
     = vars (snd (before_shutdown commands (boot (fault_at 2 KeyboardInterrupt))))
  /\ vars (snd (main true (boot calm))) = all_zero.
Proof.
  split; [vm_compute; reflexivity |].
  apply (@shutdown_emits_final_zero true commands
           (boot (fault_at 2 KeyboardInterrupt))).
  vm_compute; reflexivity.
Defined.

(** C6 as the spec states it fails: a Ctrl-C during the first [time.sleep]
    (the third outside call) ends the run with the zero twist as the last
    command, but with the target and control of the linear axis at [0.2] and
    [0.1]: the [finally] block resets no variable. *)
Lemma shutdown_leaves_velocities :
  fst (main true (boot (fault_at 2 KeyboardInterrupt))) = Raise KeyboardInterrupt
  /\ vars (snd (main true (boot (fault_at 2 KeyboardInterrupt))))
     = {| target_linear_velocity := LIN_VEL_STEP_SIZE;
          target_angular_velocity := zero;
          control_linear_velocity := tenth;
          control_angular_velocity := zero |}
  /\ vars (snd (main true (boot (fault_at 2 KeyboardInterrupt)))) <> all_zero.
Proof.
  split; [vm_compute; reflexivity |].
  split; [vm_compute; reflexivity |].
  vm_compute. discriminate.
Qed.

(** * Further properties of the code *)

(** ** More on the order of binary64 *)

Lemma SFcompare_opp (x y : float64) :
  SFcompare (F64.opp x) (F64.opp y) = SFcompare y x.
Proof.
  destruct x as [sx|sx| |sx mx ex], y as [sy|sy| |sy my ey]; cbn [F64.opp SFopp SFcompare];
    try reflexivity; try (destruct sx, sy; reflexivity); try (destruct sx; reflexivity);
    try (destruct sy; reflexivity).
  f_equal. rewrite (Z.compare_antisym ex ey).
  pose proof (Pos.compare_cont_antisym mx my Eq) as H. cbn [CompOpp] in H.
  destruct sx, sy; cbn [negb]; try reflexivity;
    destruct (ex ?= ey)%Z; cbn [CompOpp]; try reflexivity; rewrite <- H;
    destruct (Pos.compare_cont Eq mx my); reflexivity.
Qed.

Lemma ltb_opp (x y : float64) : ltb (F64.opp x) (F64.opp y) = ltb y x.
Proof. unfold ltb, SFltb. rewrite SFcompare_opp. reflexivity. Qed.

Lemma leb_opp (x y : float64) : leb (F64.opp x) (F64.opp y) = leb y x.
Proof. unfold leb, SFleb. rewrite SFcompare_opp. reflexivity. Qed.

Lemma opp_involutive (x : float64) : F64.opp (F64.opp x) = x.
Proof. destruct x as [[]|[]| |[] m e]; reflexivity. Qed.

Lemma opp_finite (x : float64) : finite (F64.opp x) = finite x.
Proof. destruct x as [s|s| |s m e]; reflexivity. Qed.

Lemma opp_scaled (x : float64) : scaled (F64.opp x) = (- scaled x)%Z.
Proof.
  destruct x as [s|s| |s m e]; cbn [F64.opp SFopp scaled]; try reflexivity.
  destruct s; cbn [negb cond_Zopp]; lia.
Qed.

(** A valid float between two finite floats is finite. *)
Lemma between_finite (lo hi x : float64) :
  valid x = true -> finite lo = true -> finite hi = true ->
  leb lo x = true -> leb x hi = true -> finite x = true.
Proof.
  intros Vx Flo Fhi H1 H2. unfold finite. rewrite Vx.
  destruct x as [s|s| |s m e]; try reflexivity.
  - destruct s; [destruct lo as [| [] | |]; discriminate
               | destruct hi as [| [] | |]; discriminate].
  - destruct lo; discriminate.
Qed.

Lemma leb_trans (x y z : float64) :
  finite x = true -> finite y = true -> finite z = true ->
  leb x y = true -> leb y z = true -> leb x z = true.
Proof.
  intros Fx Fy Fz H1 H2.
  apply (@leb_scaled _ _ Fx Fy) in H1. apply (@leb_scaled _ _ Fy Fz) in H2.
  apply (@leb_scaled _ _ Fx Fz). lia.
Qed.

(** ** The limiter: edges, symmetry, composition *)

Lemma ltb_irrefl (x : float64) : ltb x x = false.
Proof.
  unfold ltb, SFltb. destruct (SFcompare x x) as [c |] eqn:Hc; [| reflexivity].
  pose proof (SFcompare_antisym _ _ Hc) as H. rewrite Hc in H.
  destruct c; try reflexivity; discriminate.
Qed.



(** On finite floats the limiter is exactly [max(lo, min(v, hi))]. *)
Lemma constraint_scaled (v lo hi : float64) :
  finite v = true -> finite lo = true -> finite hi = true -> leb lo hi = true ->
  finite (constraint v lo hi) = true
  /\ scaled (constraint v lo hi)
     = Z.max (scaled lo) (Z.min (scaled v) (scaled hi)).
Proof.
  intros Fv Flo Fhi Hle. apply (@leb_scaled _ _ Flo Fhi) in Hle.
  unfold constraint.
  destruct (ltb v lo) eqn:H1.
  - apply (@ltb_scaled _ _ Fv Flo) in H1. split; [exact Flo | lia].
  - apply ltb_false_leb in H1; try (apply finite_not_nan; assumption).
    apply (@leb_scaled _ _ Flo Fv) in H1.
    destruct (ltb hi v) eqn:H2.
    + apply (@ltb_scaled _ _ Fhi Fv) in H2. split; [exact Fhi | lia].
    + apply ltb_false_leb in H2; try (apply finite_not_nan; assumption).
      apply (@leb_scaled _ _ Fv Fhi) in H2. split; [exact Fv | lia].
Qed.

(** X2: The limiter keeps the order of its inputs. *)
Theorem constraint_monotone (v1 v2 lo hi : float64) :
  finite v1 = true -> finite v2 = true ->
  finite lo = true -> finite hi = true -> leb lo hi = true ->
  leb v1 v2 = true ->
  leb (constraint v1 lo hi) (constraint v2 lo hi) = true.
Proof.
  intros F1 F2 Flo Fhi Hle H.
  destruct (@constraint_scaled v1 lo hi F1 Flo Fhi Hle) as [G1 E1].
  destruct (@constraint_scaled v2 lo hi F2 Flo Fhi Hle) as [G2 E2].
  apply (@leb_scaled _ _ G1 G2). apply (@leb_scaled _ _ F1 F2) in H. lia.
Qed.

Lemma constraint_monotone_witness :
  finite tenth = true /\ finite half = true
  /\ finite (- WAFFLE_MAX_LIN_VEL) = true /\ finite WAFFLE_MAX_LIN_VEL = true
  /\ leb (- WAFFLE_MAX_LIN_VEL) WAFFLE_MAX_LIN_VEL = true
  /\ leb tenth half = true
  /\ leb (constraint tenth (- WAFFLE_MAX_LIN_VEL) WAFFLE_MAX_LIN_VEL)
         (constraint half (- WAFFLE_MAX_LIN_VEL) WAFFLE_MAX_LIN_VEL) = true.
Proof.
  do 6 (split; [reflexivity |]).
  apply (@constraint_monotone tenth half (- WAFFLE_MAX_LIN_VEL) WAFFLE_MAX_LIN_VEL);
    reflexivity.
Defined.

(** X3: What is not a finite number: a NaN goes through the limiter unclamped,
    whatever the bounds; the infinities are cut to the bound on their side. *)
Theorem constraint_nan_and_infinities (lo hi : float64) :
  finite lo = true -> finite hi = true ->
  constraint S754_nan lo hi = S754_nan
  /\ constraint (S754_infinity false) lo hi = hi
  /\ constraint (S754_infinity true) lo hi = lo
  /\ (forall model w,
        check_limit "linear" S754_nan model w = (Ok (Some S754_nan), w)
        /\ check_limit "angular" S754_nan model w = (Ok (Some S754_nan), w)).
Proof.
  intros Flo Fhi.
  split; [destruct hi; reflexivity |]. split; [| split; [| split; reflexivity]].
  - destruct lo as [| | |], hi as [| | |]; try discriminate; reflexivity.
  - destruct lo as [| | |]; try discriminate; reflexivity.
Qed.

Lemma constraint_nan_and_infinities_witness :
  finite (- WAFFLE_MAX_ANG_VEL) = true /\ finite WAFFLE_MAX_ANG_VEL = true
  /\ constraint S754_nan (- WAFFLE_MAX_ANG_VEL) WAFFLE_MAX_ANG_VEL = S754_nan
  /\ constraint (S754_infinity false) (- WAFFLE_MAX_ANG_VEL) WAFFLE_MAX_ANG_VEL
     = WAFFLE_MAX_ANG_VEL
  /\ constraint (S754_infinity true) (- WAFFLE_MAX_ANG_VEL) WAFFLE_MAX_ANG_VEL
     = (- WAFFLE_MAX_ANG_VEL)%f64.
Proof.
  do 2 (split; [reflexivity |]).
  destruct (@constraint_nan_and_infinities (- WAFFLE_MAX_ANG_VEL) WAFFLE_MAX_ANG_VEL
              eq_refl eq_refl) as (H1 & H2 & H3 & _).
  split; [exact H1 | split; [exact H2 | exact H3]].
Defined.

(** With symmetric bounds the limiter is odd: the clamp of [-v] is the
    opposite of the clamp of [v]. *)
Lemma constraint_odd (v m : float64) :
  valid v = true -> finite m = true -> ltb zero m = true ->
  constraint (- v) (- m) m = (- constraint v (- m) m)%f64.
Proof.
  intros Vv Fm Hm. unfold constraint.
  rewrite ltb_opp.
  replace (ltb m (- v)) with (ltb v (- m))
    by (rewrite <- (opp_involutive m) at 2; rewrite ltb_opp; reflexivity).
  destruct (ltb m v) eqn:H1; destruct (ltb v (- m)) eqn:H2; try reflexivity.
  - (* both tests cannot hold *)
    exfalso.
    pose proof (@positive_scaled _ Fm Hm) as Pm.
    assert (Fo : finite (- m) = true) by (rewrite opp_finite; exact Fm).
    destruct v as [s|s| |s mv ev]; try discriminate.
    + apply (@ltb_scaled m (S754_zero s) Fm eq_refl) in H1.
      cbn [scaled] in H1. lia.
    + destruct s; [destruct m as [| | |]; discriminate
                 | destruct m as [| | |[]]; discriminate].
    + pose proof (@valid_finite _ _ _ Vv) as Fv.
      apply (@ltb_scaled _ _ Fm Fv) in H1. apply (@ltb_scaled _ _ Fv Fo) in H2.
      rewrite opp_scaled in H2. lia.
  - rewrite opp_involutive. reflexivity.
Qed.

(** X4: [check_limit] is odd on both axes: for a float [v], limiting [-v] gives
    the opposite of what limiting [v] gives. *)
Theorem check_limit_odd (v : float64) (model : string) (w : world) :
  valid v = true ->
  check_limit "linear" (- v) model w
  = (Ok (Some (- constraint v (- WAFFLE_MAX_LIN_VEL) WAFFLE_MAX_LIN_VEL)%f64), w)
  /\ check_limit "angular" (- v) model w
     = (Ok (Some (- constraint v (- WAFFLE_MAX_ANG_VEL) WAFFLE_MAX_ANG_VEL)%f64), w)
  /\ check_limit "linear" v model w
     = (Ok (Some (constraint v (- WAFFLE_MAX_LIN_VEL) WAFFLE_MAX_LIN_VEL)), w)
  /\ check_limit "angular" v model w
     = (Ok (Some (constraint v (- WAFFLE_MAX_ANG_VEL) WAFFLE_MAX_ANG_VEL)), w).
Proof.
  intros Vv. unfold check_limit, ret. cbn [String.eqb Ascii.eqb Bool.eqb].
  rewrite <- !constraint_odd by (try assumption; reflexivity).
  repeat split; reflexivity.
Qed.

Lemma check_limit_odd_witness :
  valid half = true
  /\ check_limit "linear" (- half) default_model (boot calm)
     = (Ok (Some (- constraint half (- WAFFLE_MAX_LIN_VEL) WAFFLE_MAX_LIN_VEL)%f64),
        boot calm).
Proof.
  split; [reflexivity |].
  apply (proj1 (@check_limit_odd half default_model (boot calm) eq_refl)).
Defined.

(** X5: Any kind other than the two known ones: one error line in the log,
    [None] to the caller, no variable touched, no exception. *)
Theorem check_limit_unknown_kind (kind : string) (v : float64) (model : string)
    (w : world) :
  String.eqb kind "angular" = false -> String.eqb kind "linear" = false ->
  faults w (clock w) = None ->
  check_limit kind v model w
  = (Ok None,
     {| vars := vars w;
        trace := trace w
                 ++ [EvError "Unknown type of velocity! Please use 'linear' or 'angular'."];
        clock := S (clock w); faults := faults w |}).
Proof.
  intros H1 H2 Hf. unfold check_limit. rewrite H1, H2.
  unfold bind, call, ret. rewrite Hf. reflexivity.
Qed.

Lemma check_limit_unknown_kind_witness :
  String.eqb "both" "angular" = false /\ String.eqb "both" "linear" = false
  /\ faults (boot calm) (clock (boot calm)) = None
  /\ check_limit "both" half default_model (boot calm)
     = (Ok None,
        {| vars := vars (boot calm);
           trace := trace (boot calm)
                    ++ [EvError "Unknown type of velocity! Please use 'linear' or 'angular'."];
           clock := S (clock (boot calm)); faults := faults (boot calm) |}).
Proof.
  do 3 (split; [reflexivity |]).
  apply (@check_limit_unknown_kind "both" half default_model (boot calm));
    reflexivity.
Defined.

(** ** The profiler: edges *)

(** X6: Once the rounded step reaches or passes the target, the call returns the
    target itself. *)
Theorem make_simple_profile_lands (previous_control target max_step : float64) :
  (ltb previous_control target = true ->
   leb target (F64.add previous_control max_step) = true ->
   make_simple_profile previous_control target max_step = target)
  /\ (ltb target previous_control = true ->
      leb (F64.sub previous_control max_step) target = true ->
      make_simple_profile previous_control target max_step = target).
Proof.
  unfold make_simple_profile, py_min, py_max. split; intros H1 H2.
  - rewrite H1, (leb_ltb_false _ _ H2). reflexivity.
  - rewrite (leb_ltb_false _ _ (ltb_leb _ _ H1)), H1, (leb_ltb_false _ _ H2).
    reflexivity.
Qed.

Lemma make_simple_profile_lands_witness :
  (ltb three_tenths four_tenths = true
   /\ leb four_tenths (F64.add three_tenths quarter) = true
   /\ make_simple_profile three_tenths four_tenths quarter = four_tenths)
  /\ (ltb three_tenths four_tenths = true
      /\ leb (F64.sub four_tenths quarter) three_tenths = true
      /\ make_simple_profile four_tenths three_tenths quarter = three_tenths).
Proof.
  split; (split; [reflexivity | split; [reflexivity |]]).
  - apply (proj1 (make_simple_profile_lands three_tenths four_tenths quarter));
      reflexivity.
  - apply (proj2 (make_simple_profile_lands four_tenths three_tenths quarter));
      reflexivity.
Defined.

(** X7: A control equal to the target stays there under any number of further
    calls, whatever the step: zero, negative, infinite or NaN. *)
Theorem iterate_fixed_at_target (n : nat) (control target step : float64) :
  is_nan target = false -> eqb control target = true ->
  eqb (iterate n control target step) target = true
  /\ iterate (S n) control target step = target.
Proof.
  intros Nt He. split; [apply iterate_stays; assumption |].
  destruct (eqb_ltb_false _ _ He) as [H1 H2].
  cbn [iterate]. rewrite (@profile_level control target step H1 H2).
  clear He H1 H2. induction n as [| n IH]; cbn [iterate]; [reflexivity |].
  rewrite (@profile_level target target step (ltb_irrefl _) (ltb_irrefl _)).
  exact IH.
Qed.

Lemma iterate_fixed_at_target_witness :
  is_nan zero = false /\ eqb (S754_zero true) zero = true
  /\ eqb (iterate 3 (S754_zero true) zero minus_one) zero = true
  /\ iterate 4 (S754_zero true) zero minus_one = zero.
Proof.
  do 2 (split; [reflexivity |]).
  apply (@iterate_fixed_at_target 3 (S754_zero true) zero minus_one); reflexivity.
Defined.

(** X8: NaN defeats the ramp: a NaN target is returned as it is, and a NaN
    control or a NaN step makes the call return the target at once. *)
Theorem make_simple_profile_nan (previous_control target max_step : float64) :
  make_simple_profile previous_control S754_nan max_step = S754_nan
  /\ make_simple_profile S754_nan target max_step = target
  /\ make_simple_profile previous_control target S754_nan = target.
Proof.
  unfold make_simple_profile, py_min, py_max. split; [| split].
  - destruct previous_control; reflexivity.
  - destruct target; reflexivity.
  - replace (F64.add previous_control S754_nan) with S754_nan
      by (destruct previous_control; reflexivity).
    replace (F64.sub previous_control S754_nan) with S754_nan
      by (destruct previous_control; reflexivity).
    replace (ltb S754_nan target) with false by (destruct target; reflexivity).
    replace (ltb target S754_nan) with false by (destruct target; reflexivity).
    destruct (ltb previous_control target), (ltb target previous_control);
      reflexivity.
Qed.

(** ** Reasoning about the monad *)

Section Hoare.

Context {A B : Type}.

Lemma hoare_ret (P : world -> Prop) (a : A) (Q : A -> world -> Prop)
    (E : world -> Prop) :
  (forall w, P w -> Q a w) -> hoare P (ret a) Q E.
Proof. intros H w Hw. apply H, Hw. Qed.

Lemma hoare_bind (P : world -> Prop) (m : M A) (k : A -> M B)
    (R : A -> world -> Prop) (Q : B -> world -> Prop) (E : world -> Prop) :
  hoare P m R E -> (forall a, hoare (R a) (k a) Q E) -> hoare P (bind m k) Q E.
Proof.
  intros Hm Hk w Hw. unfold bind. specialize (Hm w Hw).
  destruct (m w) as [[a | e] w']; [apply (Hk a w' Hm) | exact Hm].
Qed.

Lemma hoare_conseq (P P' : world -> Prop) (m : M A) (Q Q' : A -> world -> Prop)
    (E : world -> Prop) :
  (forall w, P' w -> P w) -> (forall a w, Q a w -> Q' a w) ->
  hoare P m Q E -> hoare P' m Q' E.
Proof.
  intros HP HQ H w Hw. specialize (H w (HP w Hw)).
  destruct (m w) as [[a | e] w']; [apply HQ, H | exact H].
Qed.

Lemma hoare_raise (P : world -> Prop) (e : exn) (Q : A -> world -> Prop)
    (E : world -> Prop) :
  (forall w, P w -> E w) -> hoare P (raise e) Q E.
Proof. intros H w Hw. apply H, Hw. Qed.

End Hoare.

Lemma hoare_get (P : world -> Prop) (Q : velocities -> world -> Prop)
    (E : world -> Prop) :
  (forall w, P w -> Q (vars w) w) -> hoare P get_vars Q E.
Proof. intros H w Hw. apply H, Hw. Qed.

Lemma hoare_set (P : world -> Prop) (v : velocities) (Q : unit -> world -> Prop)
    (E : world -> Prop) :
  (forall w, P w ->
     Q tt {| vars := v; trace := trace w; clock := clock w; faults := faults w |}) ->
  hoare P (set_vars v) Q E.
Proof. intros H w Hw. apply H, Hw. Qed.

Lemma hoare_call (P : world -> Prop) (ev : event) (Q : unit -> world -> Prop)
    (E : world -> Prop) :
  (forall w, P w ->
     Q tt {| vars := vars w; trace := trace w ++ [ev];
             clock := S (clock w); faults := faults w |}) ->
  (forall w, P w ->
     faults w (clock w) <> None ->
     E {| vars := vars w; trace := trace w;
          clock := S (clock w); faults := faults w |}) ->
  hoare P (call ev) Q E.
Proof.
  intros HQ HE w Hw. unfold call.
  destruct (faults w (clock w)) as [e |] eqn:Hf.
  - apply HE; [exact Hw | rewrite Hf; discriminate].
  - apply HQ, Hw.
Qed.

Lemma hoare_for_each (I : world -> Prop) (body : string -> M unit)
    (cmds : list string) :
  (forall c, hoare I (body c) (fun _ => I) I) ->
  hoare I (for_each cmds body) (fun _ => I) I.
Proof.
  intros Hb. induction cmds as [| c rest IH]; cbn [for_each].
  - apply hoare_ret. auto.
  - eapply hoare_bind; [apply Hb | intros u; exact IH].
Qed.

Lemma hoare_try (P I : world -> Prop) (body : M unit) (handler : string -> M unit)
    (final : M unit) :
  hoare P body (fun _ => I) I ->
  (forall msg, hoare I (handler msg) (fun _ => I) I) ->
  hoare I final (fun _ => I) I ->
  hoare P (try_except_finally body handler final) (fun _ => I) I.
Proof.
  intros Hb Hh Hf w Hw. unfold try_except_finally. specialize (Hb w Hw).
  destruct (body w) as [[[] | [msg |]] w1].
  - specialize (Hf w1 Hb). destruct (final w1) as [[[] | e] w3]; exact Hf.
  - specialize (Hh msg w1 Hb). destruct (handler msg w1) as [[[] | e] w2];
      specialize (Hf w2 Hh); destruct (final w2) as [[[] | e'] w3]; exact Hf.
  - specialize (Hf w1 Hb). destruct (final w1) as [[[] | e] w3]; exact Hf.
Qed.

(** ** The control loop keeps every command inside the envelope *)

Lemma within_scaled (m x : float64) :
  finite m = true ->
  (within m x <-> finite x = true
                  /\ (- scaled m <= scaled x /\ scaled x <= scaled m)%Z).
Proof.
  intros Fm. unfold within.
  assert (Fo : finite (- m) = true) by (rewrite opp_finite; exact Fm).
  split.
  - intros (Fx & H1 & H2). split; [exact Fx |].
    apply (@leb_scaled _ _ Fo Fx) in H1. apply (@leb_scaled _ _ Fx Fm) in H2.
    rewrite opp_scaled in H1. lia.
  - intros (Fx & H1 & H2). split; [exact Fx |].
    split; [apply (@leb_scaled _ _ Fo Fx); rewrite opp_scaled
           | apply (@leb_scaled _ _ Fx Fm)]; lia.
Qed.

Lemma within_zero (m : float64) :
  finite m = true -> ltb zero m = true -> within m zero.
Proof.
  intros Fm Hm. apply within_scaled; [exact Fm |].
  pose proof (@positive_scaled _ Fm Hm). split; [reflexivity |].
  cbn [scaled zero]. lia.
Qed.

Lemma constraint_valid (v lo hi : float64) :
  valid v = true -> valid lo = true -> valid hi = true ->
  valid (constraint v lo hi) = true.
Proof.
  intros. unfold constraint. destruct (ltb v lo); [assumption |].
  destruct (ltb hi v); assumption.
Qed.

(** The clamp of a float that is a number is inside the envelope. *)
Lemma clamp_within (m x : float64) :
  finite m = true -> ltb zero m = true ->
  valid x = true -> is_nan x = false ->
  within m (constraint x (- m) m).
Proof.
  intros Fm Hm Vx Nx.
  assert (Fo : finite (- m) = true) by (rewrite opp_finite; exact Fm).
  pose proof (@positive_scaled _ Fm Hm) as Pm.
  assert (Hle : leb (- m) m = true)
    by (apply (@leb_scaled _ _ Fo Fm); rewrite opp_scaled; lia).
  destruct (@constraint_within (- m) m (finite_not_nan _ Fo) (finite_not_nan _ Fm)
              Hle x Nx) as [H1 H2].
  split; [| split; assumption].
  apply (@between_finite (- m) m); try assumption.
  apply constraint_valid; try assumption; apply finite_valid; assumption.
Qed.

(** One call of the profiler between two velocities of the envelope stays
    in the envelope. *)
Lemma profile_within (m c t s : float64) :
  finite m = true -> within m c -> within m t ->
  finite s = true -> ltb zero s = true ->
  within m (make_simple_profile c t s).
Proof.
  intros Fm Hc Ht Fs Hs.
  pose proof (proj1 (@within_scaled m c Fm) Hc) as (Fc & Bc).
  pose proof (proj1 (@within_scaled m t Fm) Ht) as (Ft & Bt).
  pose proof (finite_valid _ Fc) as Vc. pose proof (finite_valid _ Fs) as Vs.
  pose proof (ltb_leb _ _ Hs) as Hs'.
  destruct (ltb c t) eqn:Hup.
  - destruct (@profile_rising _ _ _ Vc Vs Hs' Hup) as [[-> _] | (-> & Hlt & Hle)];
      [exact Ht |].
    assert (Fr : finite (F64.add c s) = true).
    { apply (@between_finite c t); try assumption;
        [apply add_valid; assumption | apply ltb_leb; exact Hlt]. }
    apply within_scaled; [exact Fm |]. split; [exact Fr |].
    apply (@leb_scaled _ _ Fc Fr) in Hle. apply (@ltb_scaled _ _ Fr Ft) in Hlt. lia.
  - destruct (ltb t c) eqn:Hdown.
    + destruct (@profile_falling _ _ _ Vc Vs Hs' Hdown) as [[-> _] | (-> & Hgt & Hle)];
        [exact Ht |].
      assert (Fr : finite (F64.sub c s) = true).
      { apply (@between_finite t c); try assumption;
          [apply sub_valid; assumption | apply ltb_leb; exact Hgt]. }
      apply within_scaled; [exact Fm |]. split; [exact Fr |].
      apply (@leb_scaled _ _ Fr Fc) in Hle. apply (@ltb_scaled _ _ Ft Fr) in Hgt. lia.
    + rewrite (@profile_level _ _ s Hup Hdown). exact Ht.
Qed.

(** What the limiter makes of a target moved by one increment. *)
Lemma moved_target_within (m t d : float64) :
  finite m = true -> ltb zero m = true -> within m t -> finite d = true ->
  within m (constraint (F64.add t d) (- m) m)
  /\ within m (constraint (F64.sub t d) (- m) m).
Proof.
  intros Fm Hm (Ft & _) Fd.
  split; apply clamp_within; try assumption.
  - apply add_valid; apply finite_valid; assumption.
  - apply add_finite_not_nan; assumption.
  - apply sub_valid; apply finite_valid; assumption.
  - apply sub_finite_not_nan; assumption.
Qed.

Lemma platform_constants :
  finite WAFFLE_MAX_LIN_VEL = true /\ ltb zero WAFFLE_MAX_LIN_VEL = true
  /\ finite WAFFLE_MAX_ANG_VEL = true /\ ltb zero WAFFLE_MAX_ANG_VEL = true
  /\ finite LIN_VEL_STEP_SIZE = true /\ finite ANG_VEL_STEP_SIZE = true
  /\ finite (div LIN_VEL_STEP_SIZE two) = true
  /\ ltb zero (div LIN_VEL_STEP_SIZE two) = true
  /\ finite (div ANG_VEL_STEP_SIZE two) = true
  /\ ltb zero (div ANG_VEL_STEP_SIZE two) = true.
Proof. repeat split; vm_compute; reflexivity. Qed.

Lemma safe_all_zero : safe_vars all_zero.
Proof.
  destruct platform_constants as (F1 & P1 & F2 & P2 & _).
  unfold safe_vars, all_zero; cbn [target_linear_velocity control_linear_velocity
    target_angular_velocity control_angular_velocity].
  repeat split; try apply within_zero; assumption.
Qed.

Lemma dispatch_safe (c : string) (w : world) :
  safe_world w -> safe_world (snd (dispatch c w)).
Proof.
  destruct w as [[tl ta cl ca] tr ck fl].
  unfold safe_world, safe_vars.
  cbn [vars trace target_linear_velocity target_angular_velocity
       control_linear_velocity control_angular_velocity].
  intros [(TL & CL & TA & CA) Hpub].
  destruct platform_constants as (F1 & P1 & F2 & P2 & F3 & F4 & _).
  pose proof safe_all_zero as (Z1 & Z2 & Z3 & Z4).
  cbn [all_zero target_linear_velocity target_angular_velocity
       control_linear_velocity control_angular_velocity] in Z1, Z2, Z3, Z4.
  unfold dispatch.
  destruct (String.eqb c "Straight"); [| destruct (String.eqb c "Back");
    [| destruct (String.eqb c "Left"); [| destruct (String.eqb c "Right");
    [| destruct (String.eqb c "Stop")]]]].
  all: cbv [bind get_vars set_vars check_limit ret as_float show_targets
            print_values call set_target_linear set_target_angular
            set_control_angular String.eqb Ascii.eqb Bool.eqb
            vars trace clock faults fst snd all_zero
            target_linear_velocity target_angular_velocity
            control_linear_velocity control_angular_velocity].
  all: destruct (fl ck).
  all: rewrite ?published_app; cbn [published]; rewrite ?app_nil_r.
  all: repeat match goal with |- _ /\ _ => split end; try assumption.
  all: try (apply (@moved_target_within WAFFLE_MAX_LIN_VEL); assumption).
  all: try (apply (@moved_target_within WAFFLE_MAX_ANG_VEL); assumption).
Qed.

Lemma ramp_and_publish_safe (w : world) :
  safe_world w -> safe_world (snd (ramp_and_publish w)).
Proof.
  destruct w as [[tl ta cl ca] tr ck fl].
  unfold safe_world, safe_vars.
  cbn [vars trace target_linear_velocity target_angular_velocity
       control_linear_velocity control_angular_velocity].
  intros [(TL & CL & TA & CA) Hpub].
  destruct platform_constants as (F1 & P1 & F2 & P2 & F3 & F4 & F5 & P5 & F6 & P6).
  pose proof (@profile_within _ _ _ _ F1 CL TL F5 P5) as NL.
  pose proof (@profile_within _ _ _ _ F2 CA TA F6 P6) as NA.
  unfold ramp_and_publish.
  cbv [bind get_vars set_vars ret call set_control_linear set_control_angular
       vars trace clock faults fst snd
       target_linear_velocity target_angular_velocity
       control_linear_velocity control_angular_velocity].
  destruct (fl ck); [| destruct (fl (S ck))].
  all: rewrite ?published_app; cbn [published]; rewrite ?app_nil_r.
  all: repeat match goal with |- _ /\ _ => split end; try assumption.
  all: apply Forall_app; split; [assumption |].
  all: constructor; [| constructor].
  all: unfold safe_twist, planar_twist; cbn [linear angular vx vy vz].
  all: repeat match goal with |- _ /\ _ => split end;
    try assumption; reflexivity.
Qed.

Lemma hoare_of_snd {A} (I : world -> Prop) (m : M A) :
  (forall w, I w -> I (snd (m w))) -> hoare I m (fun _ => I) I.
Proof.
  intros H w Hw. specialize (H w Hw). destruct (m w) as [[a | e] w']; exact H.
Qed.

Lemma cycle_safe (c : string) :
  hoare safe_world (cycle c) (fun _ => safe_world) safe_world.
Proof.
  unfold cycle. eapply hoare_bind.
  - apply hoare_of_snd. apply dispatch_safe.
  - intros u. apply hoare_of_snd. apply ramp_and_publish_safe.
Qed.

Lemma shutdown_safe (posix : bool) :
  hoare safe_world (shutdown posix) (fun _ => safe_world) safe_world.
Proof.
  apply hoare_of_snd. intros w [Hv Hpub].
  destruct platform_constants as (F1 & P1 & F2 & P2 & _).
  unfold shutdown, bind, call, ret.
  destruct (faults w (clock w)); cbn [snd]; [split; assumption |].
  assert (Hz : Forall (fun t => safe_twist t /\ planar_twist t)
                 (published (trace w) ++ [Twist_new])).
  { apply Forall_app. split; [assumption |]. constructor; [| constructor].
    unfold safe_twist, planar_twist, Twist_new; cbn [linear angular vx vy vz].
    repeat match goal with |- _ /\ _ => split end;
      try reflexivity; apply within_zero; assumption. }
  destruct posix; cbn [faults clock vars trace];
    [destruct (faults w (S (clock w))) |]; cbn [snd];
    (split; [exact Hv |]); cbn [trace];
    rewrite ?published_app; cbn [published]; rewrite ?app_nil_r; exact Hz.
Qed.

(** The invariant of the whole run: whatever the commands and whatever the
    environment does, [main] leaves a world in which every command sent is
    inside the envelope and planar. *)
Lemma main_with_safe (posix : bool) (cmds : list string) (w : world) :
  Forall (fun t => safe_twist t /\ planar_twist t) (published (trace w)) ->
  safe_world (snd (main_with posix cmds w)).
Proof.
  intros Hpub.
  assert (H : hoare (fun w' => Forall (fun t => safe_twist t /\ planar_twist t)
                                 (published (trace w')))
                (main_with posix cmds) (fun _ => safe_world) safe_world).
  { unfold main_with. eapply hoare_bind.
    - apply hoare_set with (Q := fun _ => safe_world).
      intros w0 H0. split; [apply safe_all_zero | exact H0].
    - intros u. apply hoare_try.
      + apply hoare_for_each. apply cycle_safe.
      + intros msg. apply hoare_of_snd. intros w0 [Hv Hp].
        unfold call. destruct (faults w0 (clock w0)); cbn [snd];
          (split; [exact Hv |]); cbn [trace];
          rewrite ?published_app; cbn [published]; rewrite ?app_nil_r; exact Hp.
      + apply shutdown_safe. }
  specialize (H w Hpub). destruct (main_with posix cmds w) as [[a | e] w']; exact H.
Qed.

(** X9: Every command [main] publishes is inside the platform's envelope:
    whatever the list of commands (unknown ones included) and whatever the
    environment does (faults, interrupts), the linear speed sent is within
    [-0.26, 0.26] and the angular speed within [-1.82, 1.82]. *)
Theorem main_publishes_within_limits (posix : bool) (cmds : list string)
    (env : nat -> option exn) :
  Forall (fun t =>
            leb (- WAFFLE_MAX_LIN_VEL) (vx (linear t)) = true
            /\ leb (vx (linear t)) WAFFLE_MAX_LIN_VEL = true
            /\ leb (- WAFFLE_MAX_ANG_VEL) (vz (angular t)) = true
            /\ leb (vz (angular t)) WAFFLE_MAX_ANG_VEL = true)
         (published (trace (snd (main_with posix cmds (boot env))))).
Proof.
  destruct (@main_with_safe posix cmds (boot env) (Forall_nil _)) as [_ H].
  eapply Forall_impl; [| exact H].
  intros t [[(_ & L1 & L2) (_ & A1 & A2)] _]. auto.
Qed.

(** X10: [main] drives two components only: in every command it publishes, the
    four other components of the twist are [0.0]. *)
Theorem main_publishes_planar (posix : bool) (cmds : list string)
    (env : nat -> option exn) :
  Forall (fun t =>
            vy (linear t) = zero /\ vz (linear t) = zero
            /\ vx (angular t) = zero /\ vy (angular t) = zero)
         (published (trace (snd (main_with posix cmds (boot env))))).
Proof.
  destruct (@main_with_safe posix cmds (boot env) (Forall_nil _)) as [_ H].
  eapply Forall_impl; [| exact H].
  intros t [_ P]. exact P.
Qed.

(** ** An undisturbed run *)

Lemma cycle_quiet (c : string) (w : world) :
  quiet w ->
  fst (cycle c w) = Ok tt
  /\ faults (snd (cycle c w)) = faults w
  /\ clock (snd (cycle c w)) = (3 + clock w)%nat
  /\ exists e tw,
       published [e] = []
       /\ trace (snd (cycle c w)) = trace w ++ [e; EvPublish tw; EvSleep 5].
Proof.
  destruct w as [[tl ta cl ca] tr ck fl]. unfold quiet. cbn [faults clock trace].
  intros Hq. unfold cycle, dispatch.
  destruct (String.eqb c "Straight"); [| destruct (String.eqb c "Back");
    [| destruct (String.eqb c "Left"); [| destruct (String.eqb c "Right");
    [| destruct (String.eqb c "Stop")]]]].
  all: unfold ramp_and_publish.
  all: cbv [bind get_vars set_vars check_limit ret as_float show_targets
            print_values call set_target_linear set_target_angular
            set_control_linear set_control_angular
            String.eqb Ascii.eqb Bool.eqb
            vars trace clock faults all_zero
            target_linear_velocity target_angular_velocity
            control_linear_velocity control_angular_velocity].
  all: rewrite !Hq; cbn [fst snd faults clock trace].
  all: repeat match goal with |- _ /\ _ => split end; try reflexivity.
  all: eexists; eexists; split; [| rewrite <- !app_assoc; reflexivity]; reflexivity.
Qed.

Lemma for_each_quiet (cmds : list string) (w : world) :
  quiet w ->
  fst (for_each cmds cycle w) = Ok tt
  /\ faults (snd (for_each cmds cycle w)) = faults w
  /\ clock (snd (for_each cmds cycle w)) = (3 * List.length cmds + clock w)%nat
  /\ List.length (published (trace (snd (for_each cmds cycle w))))
     = (List.length cmds + List.length (published (trace w)))%nat.
Proof.
  revert w. induction cmds as [| c rest IH]; intros w Hq.
  - cbn [for_each ret fst snd List.length]. repeat split; reflexivity.
  - cbn [for_each]. unfold bind.
    destruct (cycle_quiet c Hq) as (H1 & H2 & H3 & e & tw & He & Ht).
    destruct (cycle c w) as [r w1]. cbn [fst snd] in *. subst r.
    assert (Hq1 : quiet w1) by (unfold quiet; rewrite H2; exact Hq).
    destruct (IH w1 Hq1) as (I1 & I2 & I3 & I4).
    split; [exact I1 |]. split; [rewrite I2; exact H2 |].
    split; [rewrite I3, H3; cbn [List.length]; lia |].
    rewrite I4, Ht, published_app.
    replace (published [e; EvPublish tw; EvSleep 5]) with [tw]
      by (destruct e; try discriminate He; reflexivity).
    rewrite List.length_app. cbn [List.length]. lia.
Qed.

(** X12: An undisturbed run returns normally and sends one command per entry of
    the list, known or not, then the final one; it makes three outside
    calls per entry (a print, the publish, the sleep) and those of the
    [finally] block. *)
Theorem main_with_undisturbed (posix : bool) (cmds : list string) (w : world) :
  quiet w ->
  fst (main_with posix cmds w) = Ok tt
  /\ List.length (published (trace (snd (main_with posix cmds w))))
     = (List.length cmds + 1 + List.length (published (trace w)))%nat
  /\ clock (snd (main_with posix cmds w))
     = (3 * List.length cmds + (if posix then 2 else 1) + clock w)%nat.
Proof.
  intros Hq. unfold main_with, bind, set_vars, try_except_finally.
  set (w0 := {| vars := all_zero; trace := trace w; clock := clock w;
                faults := faults w |}).
  assert (Hq0 : quiet w0) by exact Hq.
  destruct (for_each_quiet cmds Hq0) as (H1 & H2 & H3 & H4).
  destruct (for_each cmds cycle w0) as [r w1]. cbn [fst snd] in *. subst r.
  assert (Hq1 : quiet w1) by (unfold quiet; rewrite H2; exact Hq).
  unfold shutdown, bind, call, ret. rewrite (Hq1 (clock w1)).
  destruct posix; cbn [faults clock trace vars].
  - rewrite (Hq1 (S (clock w1))). cbn [fst snd clock trace].
    split; [reflexivity |]. rewrite !published_app, !List.length_app, H4, H3.
    cbn [published List.length w0 trace clock]. lia.
  - cbn [fst snd clock trace].
    split; [reflexivity |]. rewrite !published_app, !List.length_app, H4, H3.
    cbn [published List.length w0 trace clock]. lia.
Qed.

Lemma main_with_undisturbed_witness :
  quiet (boot calm)
  /\ fst (main_with true commands (boot calm)) = Ok tt
  /\ List.length (published (trace (snd (main_with true commands (boot calm)))))
     = (List.length commands + 1 + List.length (published (trace (boot calm))))%nat
  /\ clock (snd (main_with true commands (boot calm)))
     = (3 * List.length commands + 2 + clock (boot calm))%nat.
Proof.
  assert (Hq : quiet (boot calm)) by (intros k; reflexivity).
  split; [exact Hq |].
  apply (@main_with_undisturbed true commands (boot calm) Hq).
Defined.

(** ** What each command does to the state *)

Lemma command_constants :
  constraint (F64.sub zero LIN_VEL_STEP_SIZE) (- WAFFLE_MAX_LIN_VEL) WAFFLE_MAX_LIN_VEL
  = (- LIN_VEL_STEP_SIZE)%f64
  /\ constraint (F64.add zero ANG_VEL_STEP_SIZE) (- WAFFLE_MAX_ANG_VEL) WAFFLE_MAX_ANG_VEL
     = p628
  /\ constraint (F64.sub zero ANG_VEL_STEP_SIZE) (- WAFFLE_MAX_ANG_VEL) WAFFLE_MAX_ANG_VEL
     = (- p628)%f64
  /\ make_simple_profile zero (- LIN_VEL_STEP_SIZE) (div LIN_VEL_STEP_SIZE two)
     = (- tenth)%f64
  /\ make_simple_profile zero p628 (div ANG_VEL_STEP_SIZE two) = p314
  /\ make_simple_profile zero (- p628) (div ANG_VEL_STEP_SIZE two) = (- p314)%f64
  /\ make_simple_profile zero zero (div LIN_VEL_STEP_SIZE two) = zero
  /\ make_simple_profile zero zero (div ANG_VEL_STEP_SIZE two) = zero.
Proof. repeat split; vm_compute; reflexivity. Qed.

(** X13: "Stop" and "Back" drop the ramp: whatever the state before, the command
    published by a "Stop" cycle is the zero twist and the one published by
    a "Back" cycle is [-0.1] forward speed and no turn; the variables after
    them do not depend on the past. *)
Theorem stop_and_back_forget_state (w : world) :
  quiet w ->
  cycle "Stop" w
  = (Ok tt,
     {| vars := all_zero;
        trace := trace w ++ [EvPrintValues zero zero; EvPublish Twist_new; EvSleep 5];
        clock := 3 + clock w; faults := faults w |})
  /\ cycle "Back" w
     = (Ok tt,
        {| vars := {| target_linear_velocity := (- LIN_VEL_STEP_SIZE)%f64;
                      target_angular_velocity := zero;
                      control_linear_velocity := (- tenth)%f64;
                      control_angular_velocity := zero |};
           trace := trace w
                    ++ [EvPrintValues (- LIN_VEL_STEP_SIZE)%f64 zero;
                        EvPublish (set_linear_x Twist_new (- tenth)%f64);
                        EvSleep 5];
           clock := 3 + clock w; faults := faults w |}).
Proof.
  destruct w as [[tl ta cl ca] tr ck fl]. unfold quiet. cbn [faults clock trace].
  intros Hq.
  destruct command_constants as (K1 & K2 & K3 & K4 & K5 & K6 & K7 & K8).
  split; run_cycle Hq.
  - rewrite K7, K8, <- !app_assoc. reflexivity.
  - rewrite K1, K4, K8, <- !app_assoc. reflexivity.
Qed.

Lemma stop_and_back_forget_state_witness :
  quiet (boot calm)
  /\ cycle "Stop" (boot calm)
     = (Ok tt,
        {| vars := all_zero;
           trace := trace (boot calm)
                    ++ [EvPrintValues zero zero; EvPublish Twist_new; EvSleep 5];
           clock := 3 + clock (boot calm); faults := faults (boot calm) |}).
Proof.
  assert (Hq : quiet (boot calm)) by (intros k; reflexivity).
  split; [exact Hq |].
  apply (proj1 (@stop_and_back_forget_state (boot calm) Hq)).
Defined.

(** X14: "Left" and "Right" do not accumulate: whatever the angular target and
    control before, after the cycle the target is [0.628] (resp. [-0.628])
    and the control [0.314] (resp. [-0.314]), so a reversal is sent in one
    cycle.  The linear axis is left to its ramp. *)
Theorem turns_forget_angular_state (w : world) :
  quiet w ->
  let linear_next :=
    make_simple_profile (control_linear_velocity (vars w))
      (target_linear_velocity (vars w)) (div LIN_VEL_STEP_SIZE two) in
  vars (snd (cycle "Left" w))
  = {| target_linear_velocity := target_linear_velocity (vars w);
       target_angular_velocity := p628;
       control_linear_velocity := linear_next;
       control_angular_velocity := p314 |}
  /\ vars (snd (cycle "Right" w))
     = {| target_linear_velocity := target_linear_velocity (vars w);
          target_angular_velocity := (- p628)%f64;
          control_linear_velocity := linear_next;
          control_angular_velocity := (- p314)%f64 |}
  /\ published (trace (snd (cycle "Left" w)))
     = published (trace w)
       ++ [set_angular_z (set_linear_x Twist_new linear_next) p314]
  /\ published (trace (snd (cycle "Right" w)))
     = published (trace w)
       ++ [set_angular_z (set_linear_x Twist_new linear_next) (- p314)%f64].
Proof.
  destruct w as [[tl ta cl ca] tr ck fl]. unfold quiet. cbn [faults clock trace].
  intros Hq. cbv zeta.
  cbn [vars target_linear_velocity control_linear_velocity].
  destruct command_constants as (K1 & K2 & K3 & K4 & K5 & K6 & K7 & K8).
  split; [| split; [| split]]; run_cycle Hq; cbn [vars trace];
    rewrite ?K2, ?K3, ?K5, ?K6; try reflexivity;
    rewrite !published_app; cbn [published]; rewrite ?app_nil_r; reflexivity.
Qed.

Lemma turns_forget_angular_state_witness :
  quiet (boot calm)
  /\ vars (snd (cycle "Left" (boot calm)))
     = {| target_linear_velocity := target_linear_velocity (vars (boot calm));
          target_angular_velocity := p628;
          control_linear_velocity :=
            make_simple_profile (control_linear_velocity (vars (boot calm)))
              (target_linear_velocity (vars (boot calm))) (div LIN_VEL_STEP_SIZE two);
          control_angular_velocity := p314 |}.
Proof.
  assert (Hq : quiet (boot calm)) by (intros k; reflexivity).
  split; [exact Hq |].
  apply (proj1 (@turns_forget_angular_state (boot calm) Hq)).
Defined.

(** X15: A command the loop does not know changes no target: it is reported by
    a print, and the cycle goes on to ramp and publish as for any other. *)
Theorem unknown_command_still_publishes (c : string) (w : world) :
  quiet w ->
  String.eqb c "Straight" = false -> String.eqb c "Back" = false ->
  String.eqb c "Left" = false -> String.eqb c "Right" = false ->
  String.eqb c "Stop" = false ->
  let linear_next :=
    make_simple_profile (control_linear_velocity (vars w))
      (target_linear_velocity (vars w)) (div LIN_VEL_STEP_SIZE two) in
  let angular_next :=
    make_simple_profile (control_angular_velocity (vars w))
      (target_angular_velocity (vars w)) (div ANG_VEL_STEP_SIZE two) in
  cycle c w
  = (Ok tt,
     {| vars := {| target_linear_velocity := target_linear_velocity (vars w);
                   target_angular_velocity := target_angular_velocity (vars w);
                   control_linear_velocity := linear_next;
                   control_angular_velocity := angular_next |};
        trace := trace w
                 ++ [EvPrint ("Unknown command: " ++ c);
                     EvPublish (set_angular_z (set_linear_x Twist_new linear_next)
                                  angular_next);
                     EvSleep 5];
        clock := 3 + clock w; faults := faults w |}).
Proof.
  destruct w as [[tl ta cl ca] tr ck fl]. unfold quiet. cbn [faults clock trace].
  intros Hq H1 H2 H3 H4 H5. cbv zeta.
  cbn [vars target_linear_velocity control_linear_velocity
       target_angular_velocity control_angular_velocity].
  unfold cycle, dispatch. rewrite H1, H2, H3, H4, H5.
  unfold ramp_and_publish.
  cbv [bind get_vars set_vars ret call set_control_linear set_control_angular
       vars trace clock faults
       target_linear_velocity target_angular_velocity
       control_linear_velocity control_angular_velocity].
  rewrite !Hq. rewrite <- !app_assoc. reflexivity.
Qed.

Lemma unknown_command_still_publishes_witness :
  quiet (boot calm)
  /\ String.eqb "Jump" "Straight" = false /\ String.eqb "Jump" "Back" = false
  /\ String.eqb "Jump" "Left" = false /\ String.eqb "Jump" "Right" = false
  /\ String.eqb "Jump" "Stop" = false
  /\ fst (cycle "Jump" (boot calm)) = Ok tt.
Proof.
  assert (Hq : quiet (boot calm)) by (intros k; reflexivity).
  split; [exact Hq |]. do 5 (split; [reflexivity |]).
  rewrite (@unknown_command_still_publishes "Jump" (boot calm) Hq
             eq_refl eq_refl eq_refl eq_refl eq_refl).
  reflexivity.
Defined.

(** ** The nested helper *)

(** X17: [reset_velocity] publishes the all-zero twist whatever type it is given:
    naming one axis stops both, and an unknown type is logged and then
    treated the same.  The variables of [main] are not touched. *)
Theorem reset_velocity_publishes_zero (velocity_type : string) (w : world) :
  quiet w ->
  fst (reset_velocity velocity_type w) = Ok tt
  /\ published (trace (snd (reset_velocity velocity_type w)))
     = published (trace w) ++ [Twist_new]
  /\ vars (snd (reset_velocity velocity_type w)) = vars w.
Proof.
  destruct w as [v tr ck fl]. unfold quiet. cbn [faults clock trace vars].
  intros Hq. unfold reset_velocity.
  destruct (String.eqb velocity_type "linear");
    [| destruct (String.eqb velocity_type "angular");
       [| destruct (String.eqb velocity_type "both")]].
  all: cbv [bind ret call vars trace clock faults]; rewrite !Hq;
    cbn [fst snd vars trace].
  all: split; [reflexivity |]; split; [| reflexivity].
  all: rewrite !published_app; cbn [published]; rewrite ?app_nil_r; reflexivity.
Qed.

Lemma reset_velocity_publishes_zero_witness :
  quiet (boot calm)
  /\ fst (reset_velocity "linear" (boot calm)) = Ok tt
  /\ published (trace (snd (reset_velocity "linear" (boot calm))))
     = published (trace (boot calm)) ++ [Twist_new]
  /\ vars (snd (reset_velocity "linear" (boot calm))) = vars (boot calm).
Proof.
  assert (Hq : quiet (boot calm)) by (intros k; reflexivity).
  split; [exact Hq |].
  apply (@reset_velocity_publishes_zero "linear" (boot calm) Hq).
Defined.

(** ** A fault in the loop *)

Lemma cycle_outcome (c : string) (w : world) :
  faults (snd (cycle c w)) = faults w
  /\ match faults w (clock w), faults w (S (clock w)),
           faults w (S (S (clock w))) with
     | Some e, _, _ =>
         fst (cycle c w) = Raise e /\ clock (snd (cycle c w)) = S (clock w)
     | None, Some e, _ =>
         fst (cycle c w) = Raise e /\ clock (snd (cycle c w)) = S (S (clock w))
     | None, None, Some e =>
         fst (cycle c w) = Raise e /\ clock (snd (cycle c w)) = S (S (S (clock w)))
     | None, None, None =>
         fst (cycle c w) = Ok tt /\ clock (snd (cycle c w)) = S (S (S (clock w)))
     end.
Proof.
  destruct w as [[tl ta cl ca] tr ck fl]. cbn [faults clock].
  unfold cycle, dispatch, ramp_and_publish.
  destruct (String.eqb c "Straight"); [| destruct (String.eqb c "Back");
    [| destruct (String.eqb c "Left"); [| destruct (String.eqb c "Right");
    [| destruct (String.eqb c "Stop")]]]].
  all: cbv [bind get_vars set_vars check_limit ret as_float show_targets
            print_values call set_target_linear set_target_angular
            set_control_linear set_control_angular
            String.eqb Ascii.eqb Bool.eqb
            vars trace clock faults all_zero
            target_linear_velocity target_angular_velocity
            control_linear_velocity control_angular_velocity].
  all: destruct (fl ck); [| destruct (fl (S ck)); [| destruct (fl (S (S ck)))]].
  all: repeat split; reflexivity.
Qed.

Lemma fault_at_spec (n k : nat) (e : exn) :
  (k = n -> fault_at n e k = Some e) /\ (k <> n -> fault_at n e k = None).
Proof.
  unfold fault_at. split; intros H.
  - rewrite (proj2 (Nat.eqb_eq k n) H). reflexivity.
  - rewrite (proj2 (Nat.eqb_neq k n) H). reflexivity.
Qed.

(** With one fault, on the [n]-th outside call, a loop that gets that far
    stops there with that exception. *)
Lemma for_each_fault (n : nat) (e : exn) (cmds : list string) (w : world) :
  faults w = fault_at n e ->
  (clock w <= n < clock w + 3 * List.length cmds)%nat ->
  fst (for_each cmds cycle w) = Raise e
  /\ clock (snd (for_each cmds cycle w)) = S n
  /\ faults (snd (for_each cmds cycle w)) = fault_at n e.
Proof.
  revert w. induction cmds as [| c rest IH]; intros w Hf Hn;
    [cbn [List.length] in Hn; lia |].
  cbn [for_each]. unfold bind.
  destruct (cycle_outcome c w) as [Hsame Hout]. rewrite Hf in Hout, Hsame.
  destruct (fault_at_spec n (clock w) e) as [A0 B0].
  destruct (fault_at_spec n (S (clock w)) e) as [A1 B1].
  destruct (fault_at_spec n (S (S (clock w))) e) as [A2 B2].
  destruct (cycle c w) as [r w1]. cbn [fst snd] in *.
  destruct (Nat.eq_dec (clock w) n) as [E0 | N0].
  { rewrite (A0 E0) in Hout. destruct Hout as [-> Hc].
    cbn [fst snd]. repeat split; congruence. }
  rewrite (B0 N0) in Hout.
  destruct (Nat.eq_dec (S (clock w)) n) as [E1 | N1].
  { rewrite (A1 E1) in Hout. destruct Hout as [-> Hc].
    cbn [fst snd]. repeat split; congruence. }
  rewrite (B1 N1) in Hout.
  destruct (Nat.eq_dec (S (S (clock w))) n) as [E2 | N2].
  { rewrite (A2 E2) in Hout. destruct Hout as [-> Hc].
    cbn [fst snd]. repeat split; congruence. }
  rewrite (B2 N2) in Hout. destruct Hout as [-> Hc].
  apply IH; [exact Hsame |]. cbn [List.length] in Hn. lia.
Qed.

(** X18: One fault, on the [n]-th outside call, inside the loop.  An [Exception]
    is caught: [main] prints it, sends the zero twist, restores the
    terminal and returns normally, the rest of the commands unexecuted.  A
    [KeyboardInterrupt] is not caught: [main] sends the zero twist, restores
    the terminal and ends with the interrupt. *)
Theorem main_with_fault_in_loop (posix : bool) (cmds : list string) (n : nat)
    (e : exn) :
  (n < 3 * List.length cmds)%nat ->
  exists before,
    trace (snd (main_with posix cmds (boot (fault_at n e))))
    = before
      ++ match e with PyException msg => [EvPrint msg] | KeyboardInterrupt => [] end
      ++ [EvPublish Twist_new]
      ++ (if posix then [EvRestoreTerminal] else [])
    /\ fst (main_with posix cmds (boot (fault_at n e)))
       = match e with
         | PyException _ => Ok tt
         | KeyboardInterrupt => Raise KeyboardInterrupt
         end
    /\ clock (snd (main_with posix cmds (boot (fault_at n e))))
       = (S n + match e with PyException _ => 1 | KeyboardInterrupt => 0 end
          + (if posix then 2 else 1))%nat.
Proof.
  intros Hn. unfold main_with, bind, set_vars, try_except_finally, boot.
  cbn [vars trace clock faults].
  set (w0 := {| vars := all_zero; trace := []; clock := 0;
                faults := fault_at n e |}).
  destruct (@for_each_fault n e cmds w0 eq_refl ltac:(cbn [clock w0]; lia))
    as (H1 & H2 & H3).
  destruct (for_each cmds cycle w0) as [r w1]. cbn [fst snd] in *. subst r.
  destruct w1 as [v1 t1 c1 f1]. cbn [clock faults] in H2, H3. subst c1 f1.
  exists t1.
  assert (F1 : fault_at n e (S n) = None)
    by (apply (proj2 (fault_at_spec n (S n) e)); lia).
  assert (F2 : fault_at n e (S (S n)) = None)
    by (apply (proj2 (fault_at_spec n (S (S n)) e)); lia).
  assert (F3 : fault_at n e (S (S (S n))) = None)
    by (apply (proj2 (fault_at_spec n (S (S (S n))) e)); lia).
  destruct e as [msg |]; destruct posix;
    cbv [shutdown bind call ret vars trace clock faults];
    rewrite ?F1, ?F2, ?F3; cbn [fst snd trace clock];
    rewrite <- ?app_assoc; (split; [reflexivity | split; [reflexivity | lia]]).
Qed.

Lemma main_with_fault_in_loop_witness :
  (4 < 3 * List.length commands)%nat
  /\ exists before,
       trace (snd (main_with true commands (boot (fault_at 4 KeyboardInterrupt))))
       = before ++ [] ++ [EvPublish Twist_new] ++ [EvRestoreTerminal]
       /\ fst (main_with true commands (boot (fault_at 4 KeyboardInterrupt)))
          = Raise KeyboardInterrupt
       /\ clock (snd (main_with true commands (boot (fault_at 4 KeyboardInterrupt))))
          = (5 + 0 + 2)%nat.
Proof.
  assert (H : (4 < 3 * List.length commands)%nat) by (cbn; lia).
  split; [exact H |].
  apply (@main_with_fault_in_loop true commands 4 KeyboardInterrupt H).
Defined.

(** X16: "Straight" accumulates up to the limit: from a target inside the
    envelope the new target is not below the old one and not above [0.26],
    and a target at the limit stays at the limit. *)
Theorem straight_accumulates_to_the_limit (w : world) :
  quiet w ->
  within WAFFLE_MAX_LIN_VEL (target_linear_velocity (vars w)) ->
  leb (target_linear_velocity (vars w))
      (target_linear_velocity (vars (snd (cycle "Straight" w)))) = true
  /\ leb (target_linear_velocity (vars (snd (cycle "Straight" w))))
         WAFFLE_MAX_LIN_VEL = true
  /\ (target_linear_velocity (vars w) = WAFFLE_MAX_LIN_VEL ->
      target_linear_velocity (vars (snd (cycle "Straight" w)))
      = WAFFLE_MAX_LIN_VEL)
  /\ target_angular_velocity (vars (snd (cycle "Straight" w)))
     = target_angular_velocity (vars w).
Proof.
  destruct w as [[tl ta cl ca] tr ck fl]. unfold quiet.
  cbn [faults clock trace vars target_linear_velocity].
  intros Hq Ht.
  destruct platform_constants as (F1 & P1 & _ & _ & F3 & _).
  assert (Hnew : target_linear_velocity
                   (vars (snd (cycle "Straight"
                      {| vars := {| target_linear_velocity := tl;
                                    target_angular_velocity := ta;
                                    control_linear_velocity := cl;
                                    control_angular_velocity := ca |};
                         trace := tr; clock := ck; faults := fl |})))
                 = constraint (F64.add tl LIN_VEL_STEP_SIZE)
                     (- WAFFLE_MAX_LIN_VEL) WAFFLE_MAX_LIN_VEL
                 /\ target_angular_velocity
                      (vars (snd (cycle "Straight"
                         {| vars := {| target_linear_velocity := tl;
                                       target_angular_velocity := ta;
                                       control_linear_velocity := cl;
                                       control_angular_velocity := ca |};
                            trace := tr; clock := ck; faults := fl |}))) = ta).
  { run_cycle Hq. cbn [vars target_linear_velocity target_angular_velocity].
    split; reflexivity. }
  destruct Hnew as [-> ->].
  destruct (@moved_target_within _ tl LIN_VEL_STEP_SIZE F1 P1 Ht F3) as [Hw _].
  pose proof (proj1 (@within_scaled _ _ F1) Ht) as (Ft & Bt).
  split; [| split; [apply Hw | split; [| reflexivity]]].
  - (* not below the old target *)
    assert (Fo : finite (- WAFFLE_MAX_LIN_VEL) = true) by reflexivity.
    destruct (@add_nonneg_ge tl LIN_VEL_STEP_SIZE (finite_valid _ Ft)
                (finite_valid _ F3) (finite_not_nan _ Ft) eq_refl) as [Hn | Hge];
      [rewrite (@add_finite_not_nan _ _ Ft F3) in Hn; discriminate |].
    unfold constraint.
    destruct (ltb (F64.add tl LIN_VEL_STEP_SIZE) (- WAFFLE_MAX_LIN_VEL)) eqn:H1.
    + (* impossible: the sum is not below the old target *)
      exfalso. destruct Ht as (_ & Hlo & _).
      pose proof (leb_ltb_false _ _ Hge) as Hnlt.
      destruct (F64.add tl LIN_VEL_STEP_SIZE) as [s|s| |s m e] eqn:Es;
        try discriminate.
      * destruct s; [destruct tl as [| [] | |]; discriminate | discriminate].
      * assert (Fs : finite (S754_finite s m e) = true).
        { apply valid_finite. rewrite <- Es.
          apply add_valid; apply finite_valid; assumption. }
        apply (@ltb_scaled _ _ Fs Fo) in H1.
        apply (@leb_scaled _ _ Ft Fs) in Hge.
        rewrite opp_scaled in H1. lia.
    + destruct (ltb WAFFLE_MAX_LIN_VEL (F64.add tl LIN_VEL_STEP_SIZE));
        [destruct Ht as (_ & _ & Hhi); exact Hhi | exact Hge].
  - intros ->. vm_compute. reflexivity.
Qed.

Lemma straight_accumulates_to_the_limit_witness :
  quiet (boot calm)
  /\ within WAFFLE_MAX_LIN_VEL (target_linear_velocity (vars (boot calm)))
  /\ leb (target_linear_velocity (vars (boot calm)))
         (target_linear_velocity (vars (snd (cycle "Straight" (boot calm))))) = true
  /\ leb (target_linear_velocity (vars (snd (cycle "Straight" (boot calm)))))
         WAFFLE_MAX_LIN_VEL = true.
Proof.
  assert (Hq : quiet (boot calm)) by (intros k; reflexivity).
  assert (Hw : within WAFFLE_MAX_LIN_VEL (target_linear_velocity (vars (boot calm))))
    by (repeat split; reflexivity).
  split; [exact Hq |]. split; [exact Hw |].
  destruct (@straight_accumulates_to_the_limit (boot calm) Hq Hw) as (H1 & H2 & _).
  split; [exact H1 | exact H2].
Defined.

(** X11: The variables of [main] stay inside the envelope too: after any run,
    both targets and both controls are finite and within the limits of
    their axis. *)
Theorem main_variables_within_limits (posix : bool) (cmds : list string)
    (env : nat -> option exn) :
  safe_vars (vars (snd (main_with posix cmds (boot env)))).
Proof.
  destruct (@main_with_safe posix cmds (boot env) (Forall_nil _)) as [H _].
  exact H.
Qed.


(** ** A fault in the [finally] block *)

(** X19: When the final publish itself fails, nothing stops the robot and nothing
    restores the terminal: [main] ends with that failure, an [Exception]
    included ([except] does not cover [finally]), in place of whatever the
    loop had raised, and its trace is the trace of the loop, with no zero
    twist and no terminal restoration appended. *)
Theorem main_with_fault_in_finally (posix : bool) (cmds : list string)
    (w : world) (e : exn) :
  faults (snd (before_shutdown cmds w)) (clock (snd (before_shutdown cmds w)))
  = Some e ->
  fst (main_with posix cmds w) = Raise e
  /\ trace (snd (main_with posix cmds w)) = trace (snd (before_shutdown cmds w))
  /\ vars (snd (main_with posix cmds w)) = vars (snd (before_shutdown cmds w))
  /\ clock (snd (main_with posix cmds w))
     = S (clock (snd (before_shutdown cmds w))).
Proof.
  intros Hf. rewrite main_with_unfold.
  unfold shutdown, bind, call. rewrite Hf. cbn [fst snd trace vars clock].
  repeat split; reflexivity.
Qed.

Lemma main_with_fault_in_finally_witness :
  faults (snd (before_shutdown commands (boot (fault_at 18 (PyException "lost")))))
    (clock (snd (before_shutdown commands (boot (fault_at 18 (PyException "lost"))))))
  = Some (PyException "lost")
  /\ fst (main_with true commands (boot (fault_at 18 (PyException "lost"))))
     = Raise (PyException "lost")
  /\ trace (snd (main_with true commands (boot (fault_at 18 (PyException "lost")))))
     = trace (snd (before_shutdown commands (boot (fault_at 18 (PyException "lost")))))
  /\ vars (snd (main_with true commands (boot (fault_at 18 (PyException "lost")))))
     = vars (snd (before_shutdown commands (boot (fault_at 18 (PyException "lost")))))
  /\ clock (snd (main_with true commands (boot (fault_at 18 (PyException "lost")))))
     = S (clock (snd (before_shutdown commands (boot (fault_at 18 (PyException "lost")))))).
Proof.
  assert (H : faults (snd (before_shutdown commands (boot (fault_at 18 (PyException "lost")))))
                (clock (snd (before_shutdown commands (boot (fault_at 18 (PyException "lost"))))))
              = Some (PyException "lost")) by (vm_compute; reflexivity).
  split; [exact H |].
  apply (@main_with_fault_in_finally true commands
           (boot (fault_at 18 (PyException "lost"))) (PyException "lost") H).
Defined.
